(** * Stepwise sorting engine of [Main.py]: a shallow embedding

    The five [SortStrategy] subclasses of [Main.py] are Python generator
    functions that sort the list object they are given *in place* and
    [yield] that same object at prescribed points.  The embedding follows
    the source statement by statement:

    - the list object [data] is the state of a small state/trace/error
      monad [Gen]; indices are Python integers ([Z]) with Python's rule for
      negative indices and [IndexError] out of range;
    - every operation on [data] is logged ([data[i]] read, [data[i] = v],
      slice, call of the plain helper [_partition]) together with every
      [yield]; the snapshot recorded at a [yield] is the content the list
      object has at that moment, which is what a consumer that looks at it
      before resuming the generator sees (as [run_sort] does);
    - list objects live in a heap, so that the caller's list, the copy made
      by [run_sort] and the generator's [data] can be told apart;
    - the clock reads and the [print] of [timing_decorator] and the
      rendering and pacing of [run_sort] are events of an observable trace,
      in which the events of a running generator are interleaved.

    Dataset values are integers (the program generates them with
    [random.randint]); floating-point values are not modelled.  The
    interpreter's recursion limit is not modelled either.

    Of the window, the two button callbacks [generate_data] and
    [start_sort] are embedded, with the results of [random.randint] as a
    parameter and the error dialog or thread start as the callback's
    result; [draw_data] (canvas geometry in floating point) stays an
    event, and the widget wiring of [__init__] is left out. *)

From Stdlib Require Import ZArith List Lia Bool String.
From Stdlib Require Import Sorting.Sorted Sorting.Permutation.
From stdpp Require Import base list list_numbers sorting.

Local Open Scope Z_scope.

(** ** Python lists with integer indices *)

Definition len (d : list Z) : Z := Z.of_nat (length d).

(** Index normalisation of [list.__getitem__] / [list.__setitem__]:
    [0 <= i < n] is itself, [-n <= i < 0] counts from the end, anything
    else is an [IndexError] ([None]). *)
Definition py_index (n i : Z) : option nat :=
  if (0 <=? i) && (i <? n) then Some (Z.to_nat i)
  else if (- n <=? i) && (i <? 0) then Some (Z.to_nat (n + i))
  else None.

(** Bound normalisation of a slice [d[start:stop]] (step 1): negative
    bounds count from the end, then both are clamped to [0 .. n]. *)
Definition py_slice_bound (n b : Z) : Z :=
  if b <? 0 then Z.max (b + n) 0 else Z.min b n.

Definition py_slice (d : list Z) (start stop : Z) : list Z :=
  let s := py_slice_bound (len d) start in
  let e := py_slice_bound (len d) stop in
  take (Z.to_nat (e - s)) (drop (Z.to_nat s) d).

(** ** The generator monad *)

Inductive event : Type :=
| EvRead (i : Z)                 (* data[i] is evaluated *)
| EvWrite (i v : Z)              (* data[i] = v *)
| EvSlice (start stop : Z)       (* data[start:stop] is evaluated *)
| EvPartition (low high : Z)     (* _partition(data, low, high) is entered *)
| EvYield (s : list Z).          (* yield data, with the content of data *)

Inductive exn : Type :=
| IndexError                     (* Python's IndexError *)
| OutOfFuel                      (* the model's recursion/loop budget ran out *)
| BadReference.                  (* a reference to no object of the model's heap *)

Inductive outcome (A : Type) : Type :=
| Ok (a : A)
| Raise (e : exn).
Arguments Ok {A} a.
Arguments Raise {A} e.

(** A computation over the list object [data]: from its content to the
    events it performs, its content afterwards, and a value or an
    exception. *)
Definition Gen (A : Type) : Type := list Z -> list event * list Z * outcome A.

Definition gen_ret {A} (a : A) : Gen A := fun d => ([], d, Ok a).

Definition gen_bind {A B} (f : A -> Gen B) (m : Gen A) : Gen B := fun d =>
  match m d with
  | (t1, d1, Ok a) =>
      match f a d1 with
      | (t2, d2, r) => (t1 ++ t2, d2, r)
      end
  | (t1, d1, Raise e) => (t1, d1, Raise e)
  end.

#[global] Instance Gen_ret : MRet Gen := @gen_ret.
#[global] Instance Gen_bind : MBind Gen := @gen_bind.

Definition raise {A} (e : exn) : Gen A := fun d => ([], d, Raise e).

Definition log (e : event) : Gen unit := fun d => ([e], d, Ok tt).

(** [len(data)] *)
Definition len_data : Gen Z := fun d => ([], d, Ok (len d)).

(** [data[i]] *)
Definition getitem (i : Z) : Gen Z := fun d =>
  match py_index (len d) i ≫= (d !!.) with
  | Some x => ([EvRead i], d, Ok x)
  | None => ([], d, Raise IndexError)
  end.

(** [data[i] = v] *)
Definition setitem (i v : Z) : Gen unit := fun d =>
  match py_index (len d) i with
  | Some k => ([EvWrite i v], <[k := v]> d, Ok tt)
  | None => ([], d, Raise IndexError)
  end.

(** [data[start:stop]], a fresh list *)
Definition getslice (start stop : Z) : Gen (list Z) := fun d =>
  ([EvSlice start stop], d, Ok (py_slice d start stop)).

(** [l[i]] for a list [l] local to the computation *)
Definition local_getitem (l : list Z) (i : Z) : Gen Z := fun d =>
  match py_index (len l) i ≫= (l !!.) with
  | Some x => ([], d, Ok x)
  | None => ([], d, Raise IndexError)
  end.

(** [yield data] *)
Definition yield_data : Gen unit := fun d => ([EvYield d], d, Ok tt).

(** [data[i], data[j] = data[j], data[i]]: the right-hand side is
    evaluated left to right, then the targets are assigned left to right. *)
Definition swap (i j : Z) : Gen unit :=
  a ← getitem j; b ← getitem i; setitem i a;; setitem j b.

(** [for x in xs: s = body(x, s)], with the loop's local variables [s] *)
Fixpoint for_fold {A S : Type} (xs : list A) (s : S) (body : A -> S -> Gen S) : Gen S :=
  match xs with
  | [] => mret s
  | x :: xs' => s' ← body x s; for_fold xs' s' body
  end.

Definition for_each {A : Type} (xs : list A) (body : A -> Gen unit) : Gen unit :=
  for_fold xs tt (fun x _ => body x).

(** [range(lo, hi)] *)
Definition range (lo hi : Z) : list Z := seqZ lo (hi - lo).

(** The snapshots of a trace, in order. *)
Definition snapshots (t : list event) : list (list Z) :=
  omap (fun e => match e with EvYield s => Some s | _ => None end) t.

Definition trace_of {A} (r : list event * list Z * outcome A) : list event := r.1.1.

(** ** The world: heap of list objects, clock, and observable events *)

Definition loc : Type := nat.

Inductive io_event : Type :=
| IoTime (t : Z)                 (* time.time() returned t *)
| IoPrint (elapsed : Z)          (* print(f"Execution time: ... seconds") *)
| IoGen (e : event)              (* a running generator performed e *)
| IoDraw (s : list Z)            (* self.draw_data(data), with the content of data *)
| IoSleep.                       (* time.sleep(0.1) *)

(** [heap] holds the list objects, a reference is an index into it;
    [clock k] is what the [k]-th call of [time.time()] returns (in
    abstract clock units) and [ticks] counts the calls made so far. *)
Record world : Type := World {
  heap : list (list Z);
  clock : nat -> Z;
  ticks : nat
}.

Definition IO (A : Type) : Type := world -> list io_event * world * outcome A.

Definition io_ret {A} (a : A) : IO A := fun w => ([], w, Ok a).

Definition io_bind {A B} (f : A -> IO B) (m : IO A) : IO B := fun w =>
  match m w with
  | (t1, w1, Ok a) =>
      match f a w1 with
      | (t2, w2, r) => (t1 ++ t2, w2, r)
      end
  | (t1, w1, Raise e) => (t1, w1, Raise e)
  end.

#[global] Instance IO_ret : MRet IO := @io_ret.
#[global] Instance IO_bind : MBind IO := @io_bind.

Definition io_trace {A} (r : list io_event * world * outcome A) : list io_event := r.1.1.
Definition io_world {A} (r : list io_event * world * outcome A) : world := r.1.2.
Definition io_outcome {A} (r : list io_event * world * outcome A) : outcome A := r.2.

(** [time.time()] *)
Definition time_time : IO Z := fun w =>
  let t := clock w (ticks w) in
  ([IoTime t], World (heap w) (clock w) (S (ticks w)), Ok t).

(** [print(f"Execution time: {elapsed:.4f} seconds")] *)
Definition print_execution_time (elapsed : Z) : IO unit := fun w =>
  ([IoPrint elapsed], w, Ok tt).

(** [data.copy()]: a new list object with the same content *)
Definition list_copy (data : loc) : IO loc := fun w =>
  match heap w !! data with
  | Some d => ([], World (heap w ++ [d]) (clock w) (ticks w), Ok (length (heap w)))
  | None => ([], w, Raise BadReference)
  end.

(** A generator object: the suspended body of a generator function and
    the list object its parameter [data] is bound to. *)
Record generator : Type := Generator {
  gen_data : loc;
  gen_code : Gen unit
}.

(** Calling a generator function runs none of its body: the call only
    builds the generator object. *)
Definition generator_function (body : Gen unit) (data : loc) : IO generator :=
  mret (Generator data body).

(** [for data in g: body(data)] for a body that only observes the yielded
    list: the generator runs on the list object it is bound to, and the
    body's events follow each [yield] before the generator is resumed.
    An exception of the generator ends the loop and propagates. *)
Definition for_in_generator (g : generator) (body : list Z -> list io_event) : IO unit := fun w =>
  match heap w !! gen_data g with
  | Some d =>
      match gen_code g d with
      | (t, d', r) =>
          (flat_map (fun e => IoGen e :: match e with EvYield s => body s | _ => [] end) t,
           World (<[gen_data g := d']> (heap w)) (clock w) (ticks w),
           r)
      end
  | None => ([], w, Raise BadReference)
  end.

(** Consuming a generator to exhaustion without looking at what it yields. *)
Definition drain (g : generator) : IO unit := for_in_generator g (fun _ => []).

(** The snapshots yielded, and the snapshots drawn, in an observable trace. *)
Definition io_snapshots (t : list io_event) : list (list Z) :=
  omap (fun e => match e with IoGen (EvYield s) => Some s | _ => None end) t.

Definition io_draws (t : list io_event) : list (list Z) :=
  omap (fun e => match e with IoDraw s => Some s | _ => None end) t.

(** [timing_decorator(func)]: the returned [wrapper] *)
Definition timing_decorator {Args R : Type} (func : Args -> IO R) : Args -> IO R := fun args =>
  start_time ← time_time;
  result ← func args;
  end_time ← time_time;
  print_execution_time (end_time - start_time);;
  mret result.

(** ** The five strategies

    In each class, [wrapped_sort] is the generator function written under
    [@timing_decorator] (Python's [sort.__wrapped__]) and [sort] is the
    decorated method.  The strategy objects have no state, so [self] is
    left out. *)

Module BubbleSort.
Definition color : string := "red"%string.

Definition wrapped_sort : Gen unit :=
  n ← len_data;
  for_each (range 0 n) (fun i =>
    for_each (range 0 (n - i - 1)) (fun j =>
      a ← getitem j;
      b ← getitem (j + 1);
      if a >? b then swap j (j + 1);; yield_data else mret tt)).

(** [@timing_decorator def sort(self, data)] *)
Definition sort : loc -> IO generator :=
  timing_decorator (generator_function wrapped_sort).
End BubbleSort.

Module InsertionSort.
Definition color : string := "green"%string.

(** [while j >= 0 and key < data[j]: data[j + 1] = data[j]; j -= 1; yield data]
    returning the final [j]; [fuel] bounds the number of iterations. *)
Fixpoint shift_loop (fuel : nat) (key j : Z) : Gen Z :=
  if j >=? 0 then
    x ← getitem j;
    if key <? x then
      match fuel with
      | O => raise OutOfFuel
      | S fuel' =>
          y ← getitem j;
          setitem (j + 1) y;;
          yield_data;;
          shift_loop fuel' key (j - 1)
      end
    else mret j
  else mret j.

Definition wrapped_sort : Gen unit :=
  n ← len_data;
  for_each (range 1 n) (fun i =>
    key ← getitem i;
    j ← shift_loop (Z.to_nat i) key (i - 1);
    setitem (j + 1) key;;
    yield_data).

(** [@timing_decorator def sort(self, data)] *)
Definition sort : loc -> IO generator :=
  timing_decorator (generator_function wrapped_sort).
End InsertionSort.

Module MergeSort.
Definition color : string := "orange"%string.

Definition _merge (left mid right : Z) : Gen unit :=
  left_copy ← getslice left (mid + 1);
  right_copy ← getslice (mid + 1) (right + 1);
  for_fold (range left (right + 1)) (0, 0) (fun i lr =>
    let '(l, r) := lr in
    take_left ←
      (if l <? len left_copy then
         if r >=? len right_copy then mret true
         else a ← local_getitem left_copy l;
              b ← local_getitem right_copy r;
              mret (a <=? b)
       else mret false);
    lr' ←
      (if take_left : bool then
         a ← local_getitem left_copy l; setitem i a;; mret (l + 1, r)
       else
         b ← local_getitem right_copy r; setitem i b;; mret (l, r + 1));
    yield_data;;
    mret lr');;
  mret tt.

(** [fuel] bounds the recursion depth. *)
Fixpoint _merge_sort (fuel : nat) (left right : Z) : Gen unit :=
  if left <? right then
    match fuel with
    | O => raise OutOfFuel
    | S fuel' =>
        let mid := (left + right) `div` 2 in
        _merge_sort fuel' left mid;;
        _merge_sort fuel' (mid + 1) right;;
        _merge left mid right
    end
  else mret tt.

Definition wrapped_sort : Gen unit :=
  n ← len_data;
  _merge_sort (Z.to_nat n) 0 (n - 1).

(** [@timing_decorator def sort(self, data)] *)
Definition sort : loc -> IO generator :=
  timing_decorator (generator_function wrapped_sort).
End MergeSort.

Module QuickSort.
Definition color : string := "purple"%string.

Definition _partition (low high : Z) : Gen Z :=
  log (EvPartition low high);;
  pivot ← getitem high;
  i ← for_fold (range low high) (low - 1) (fun j i =>
        x ← getitem j;
        if x <=? pivot then swap (i + 1) j;; mret (i + 1) else mret i);
  swap (i + 1) high;;
  mret (i + 1).

(** [fuel] bounds the recursion depth. *)
Fixpoint _quick_sort (fuel : nat) (low high : Z) : Gen unit :=
  if low <? high then
    match fuel with
    | O => raise OutOfFuel
    | S fuel' =>
        pivot_index ← _partition low high;
        yield_data;;
        _quick_sort fuel' low (pivot_index - 1);;
        _quick_sort fuel' (pivot_index + 1) high
    end
  else mret tt.

Definition wrapped_sort : Gen unit :=
  n ← len_data;
  _quick_sort (Z.to_nat n) 0 (n - 1).

(** [@timing_decorator def sort(self, data)] *)
Definition sort : loc -> IO generator :=
  timing_decorator (generator_function wrapped_sort).
End QuickSort.

Module SelectionSort.
Definition color : string := "cyan"%string.

Definition wrapped_sort : Gen unit :=
  n ← len_data;
  for_each (range 0 n) (fun i =>
    min_idx ← for_fold (range (i + 1) n) i (fun j min_idx =>
                a ← getitem j;
                b ← getitem min_idx;
                if a <? b then mret j else mret min_idx);
    swap i min_idx;;
    yield_data).

(** [@timing_decorator def sort(self, data)] *)
Definition sort : loc -> IO generator :=
  timing_decorator (generator_function wrapped_sort).
End SelectionSort.

(** ** Strategy selection, execution context and playback *)

(** The strategy objects the program creates: [BubbleSort()],
    [InsertionSort()], [MergeSort()], [QuickSort()], [SelectionSort()].
    The base class [SortStrategy], whose [sort] raises
    [NotImplementedError], is never instantiated. *)
Inductive SortStrategy : Type := Bubble | Insertion | Merge | Quick | Selection.

Definition strategy_color (s : SortStrategy) : string :=
  match s with
  | Bubble => BubbleSort.color
  | Insertion => InsertionSort.color
  | Merge => MergeSort.color
  | Quick => QuickSort.color
  | Selection => SelectionSort.color
  end.

Definition strategy_wrapped_sort (s : SortStrategy) : Gen unit :=
  match s with
  | Bubble => BubbleSort.wrapped_sort
  | Insertion => InsertionSort.wrapped_sort
  | Merge => MergeSort.wrapped_sort
  | Quick => QuickSort.wrapped_sort
  | Selection => SelectionSort.wrapped_sort
  end.

(** [strategy.sort(data)], dispatched on the class of [strategy] *)
Definition strategy_sort (s : SortStrategy) : loc -> IO generator :=
  match s with
  | Bubble => BubbleSort.sort
  | Insertion => InsertionSort.sort
  | Merge => MergeSort.sort
  | Quick => QuickSort.sort
  | Selection => SelectionSort.sort
  end.

Record AlgorithmContext : Type := { strategy : SortStrategy }.

Definition set_strategy (self : AlgorithmContext) (s : SortStrategy) : AlgorithmContext :=
  {| strategy := s |}.

Definition execute (self : AlgorithmContext) (data : loc) : IO generator :=
  strategy_sort (strategy self) data.

(** The part of [AlgorithmAnalyzer] the playback uses: [self.data]. *)
Record AlgorithmAnalyzer : Type := { self_data : loc }.

Definition run_sort (self : AlgorithmAnalyzer) (context : AlgorithmContext) : IO unit :=
  copy ← list_copy (self_data self);
  generator ← execute context copy;
  for_in_generator generator (fun data => [IoDraw data; IoSleep]).

(** ** Vocabulary of the statements *)

(** [d[i]] for an index known to be in range ([0] otherwise). *)
Definition get (d : list Z) (i : Z) : Z := default 0 (d !! Z.to_nat i).

(** The list after [d[i] = v], for a non-negative index. *)
Definition upd (d : list Z) (i v : Z) : list Z := <[Z.to_nat i := v]> d.

(** [d[lo .. hi-1]] is in ascending order. *)
Definition sorted_range (d : list Z) (lo hi : Z) : Prop :=
  ∀ a b, lo ≤ a → a ≤ b → b < hi → get d a ≤ get d b.

(** [d'] is [d] with the elements of positions [lo .. hi-1] rearranged
    among themselves. *)
Record permuted_within (lo hi : Z) (d d' : list Z) : Prop := {
  pw_len : len d' = len d;
  pw_perm : d ≡ₚ d';
  pw_outside : ∀ k, 0 ≤ k → k < lo ∨ hi ≤ k → get d' k = get d k;
  pw_inside : ∀ k, lo ≤ k < hi → ∃ k', lo ≤ k' < hi ∧ get d' k = get d k'
}.

(** The state a consumer sees last: the last snapshot of the trace, or
    the initial content when nothing was yielded. *)
Definition last_state (t : list event) (d : list Z) : list Z :=
  default d (last (snapshots t)).

(** A successful run that changes [data] ends with a [yield] of its final
    content. *)
Definition synced {A} (m : Gen A) : Prop :=
  ∀ d t d' a, m d = (t, d', Ok a) → last_state t d = d'.

(** A computation that neither changes [data] nor yields. *)
Definition readonly {A} (m : Gen A) : Prop :=
  ∀ d t d' r, m d = (t, d', r) → d' = d ∧ snapshots t = [].

(** Every position from [m] on holds an element that is at least every
    element before it: the tail from [m] is in its final place. *)
Definition tail_sorted (d : list Z) (m : Z) : Prop :=
  ∀ a b, 0 ≤ a → a ≤ b → m ≤ b → b < len d → get d a ≤ get d b.

(** Every position before [m] holds an element that is at most every
    element after it: the head up to [m] is in its final place. *)
Definition head_sorted (d : list Z) (m : Z) : Prop :=
  ∀ a b, 0 ≤ a → a < m → a ≤ b → b < len d → get d a ≤ get d b.

(** The events of one inner iteration of bubble sort at position [j]:
    the comparison [data[j] > data[j + 1]] alone, or the comparison, the
    swap that puts the smaller value [x] at [j] and the larger [y] at
    [j + 1], and the [yield] of the list after the swap. *)
Definition bubble_compare (j : Z) : list event := [EvRead j; EvRead (j + 1)].

Definition bubble_swap (j x y : Z) (s : list Z) : list event :=
  [EvRead (j + 1); EvRead j; EvWrite j x; EvWrite (j + 1) y; EvYield s].

Definition bubble_step (b : list event) : Prop :=
  ∃ j, b = bubble_compare j
     ∨ ∃ x y s, x < y ∧ get s j = x ∧ get s (j + 1) = y
                ∧ b = bubble_compare j ++ bubble_swap j x y s.

(** A trace that is the concatenation of [c] blocks of a given form. *)
Definition made_of (block : list event → Prop) (c : nat) (t : list event) : Prop :=
  ∃ blocks, t = concat blocks ∧ length blocks = c ∧ Forall block blocks.

(** A trace made of [c] inner iterations of bubble sort. *)
Definition bubble_trace : nat → list event → Prop := made_of bubble_step.

(** The events of one outer iteration of selection sort: operations that
    yield nothing, closed by a single [yield]. *)
Definition selection_block (b : list event) : Prop :=
  ∃ ops s, b = ops ++ [EvYield s] ∧ snapshots ops = [].

(** Reads and writes of single elements. *)
Definition is_access (e : event) : Prop :=
  match e with
  | EvRead _ | EvWrite _ _ => True
  | _ => False
  end.

(** The events of one partition step of quick sort: the call of
    [_partition], its reads and writes, and the [yield] that follows its
    return. *)
Definition quick_block (b : list event) : Prop :=
  ∃ low high ops s, b = EvPartition low high :: ops ++ [EvYield s] ∧ Forall is_access ops.


(** The elements [d[s .. e-1]], for [0 <= s <= e <= len d]. *)
Definition segment (d : list Z) (s e : Z) : list Z :=
  take (Z.to_nat (e - s)) (drop (Z.to_nat s) d).

(** [d'] has the length and the elements of [d], and differs from it only
    at positions [lo .. hi-1]. *)
Definition rewritten_within (lo hi : Z) (d d' : list Z) : Prop :=
  len d' = len d
  ∧ d ≡ₚ d'
  ∧ ∀ k, 0 ≤ k → k < lo ∨ hi ≤ k → get d' k = get d k.

(** The choice of the merge loop: take from the left copy when it is not
    exhausted and the right copy is exhausted or does not hold a smaller
    element. *)
Definition merge_takes_left (L R : list Z) (l r : Z) : bool :=
  (l <? len L) && ((r >=? len R) || (get L l <=? get R r)).

(** A world for examples: the list [D] is the only object (reference
    [0]) and the clock returns [0], [1], [2], ... *)
Definition example_world (D : list Z) : world := World [D] Z.of_nat 0.


(** ** Vocabulary of the further properties *)

(** Whatever its outcome, [m] leaves [data] related by [R] to its initial
    content, and so is everything it yields. *)
Definition preserves (R : list Z → list Z → Prop) {A} (m : Gen A) : Prop :=
  ∀ d t d' r, m d = (t, d', r) → R d d' ∧ Forall (R d) (snapshots t).

Definition same_length (d d' : list Z) : Prop := length d' = length d.

(** Whatever its outcome, [m] run on a list whose elements all satisfy
    [P] leaves and yields only lists whose elements all satisfy [P], and
    a value it returns satisfies [Q]. *)
Definition confined (P : Z → Prop) {A} (Q : A → Prop) (m : Gen A) : Prop :=
  ∀ d t d' r, Forall P d → m d = (t, d', r) →
    Forall P d' ∧ Forall (Forall P) (snapshots t) ∧ ∀ a, r = Ok a → Q a.

(** The number of inversions of [l]: the pairs of positions that hold
    their two elements in descending order. *)
Fixpoint inversions (l : list Z) : nat :=
  match l with
  | [] => 0
  | x :: l' => length (filter (λ y, y < x) l') + inversions l'
  end.

(** Whenever [m] succeeds it has yielded exactly [k] snapshots. *)
Definition emits (k : nat) {A} (m : Gen A) : Prop :=
  ∀ d t d' a, m d = (t, d', Ok a) → length (snapshots t) = k.

(** The number of elements written by the merges of [_merge_sort] on
    [left .. right], by the same recursion. *)
Fixpoint merge_sort_writes (fuel : nat) (left right : Z) : nat :=
  if left <? right then
    match fuel with
    | O => 0
    | S fuel' =>
        let mid := (left + right) `div` 2 in
        merge_sort_writes fuel' left mid
        + merge_sort_writes fuel' (mid + 1) right
        + length (range left (right + 1))
    end
  else 0.

(** ** The controls of [AlgorithmAnalyzer]

    [AnalyzerState] adds to [self.data] the other attributes the button
    callbacks use: [self.current_color] and the text of the combobox,
    [self.algo_menu.get()] (free text can be typed into it).  A callback
    ends by showing an error dialog or by starting the playback thread,
    whose body is [run_sort] with the context built. *)
Record AnalyzerState : Type := {
  analyzer : AlgorithmAnalyzer;
  current_color : string;
  algo_menu_get : string
}.

Inductive start_result : Type :=
| ShowError (title message : string)        (* messagebox.showerror(title, message) *)
| ThreadStarted (context : AlgorithmContext).
                                  (* threading.Thread(target=self.run_sort, args=(context,)).start() *)

(** The [if algo == ... elif ...] chain of [start_sort]. *)
Definition strategy_of_name (algo : string) : option SortStrategy :=
  if (algo =? "Bubble Sort")%string then Some Bubble
  else if (algo =? "Insertion Sort")%string then Some Insertion
  else if (algo =? "Merge Sort")%string then Some Merge
  else if (algo =? "Quick Sort")%string then Some Quick
  else if (algo =? "Selection Sort")%string then Some Selection
  else None.

(** [start_sort]: the state afterwards and what the callback ended with
    ([None] only for a reference to no object of the model's heap). *)
Definition start_sort (self : AnalyzerState) (w : world) : option (AnalyzerState * start_result) :=
  match heap w !! self_data (analyzer self) with
  | None => None
  | Some [] => Some (self, ShowError "Error" "Please generate data first")
  | Some (_ :: _) =>
      match strategy_of_name (algo_menu_get self) with
      | Some strategy =>
          Some ({| analyzer := analyzer self;
                   current_color := strategy_color strategy;
                   algo_menu_get := algo_menu_get self |},
                ThreadStarted {| strategy := strategy |})
      | None => Some (self, ShowError "Error" "Unknown algorithm selected")
      end
  end.

(** [generate_data]: [randint k] is what the [k]-th call of
    [random.randint(10, 100)] of the comprehension returns.  The new list
    is a new object, [self.data] is rebound to it, and it is drawn. *)
Definition generate_data (randint : nat -> Z) (self : AnalyzerState) : IO AnalyzerState := fun w =>
  let data := map randint (seq 0 30) in
  ([IoDraw data],
   World (heap w ++ [data]) (clock w) (ticks w),
   Ok {| analyzer := {| self_data := length (heap w) |};
         current_color := current_color self;
         algo_menu_get := algo_menu_get self |}).

(** The five entries of the combobox. *)
Definition algorithm_names : list string :=
  ["Bubble Sort"; "Insertion Sort"; "Merge Sort"; "Quick Sort"; "Selection Sort"]%string.

(** * Properties *)

(** ** Lists as arrays *)

Lemma len_nonneg d : 0 ≤ len d.
Proof. unfold len. lia. Qed.

Lemma len_upd d i v : len (upd d i v) = len d.
Proof. unfold len, upd. by rewrite length_insert. Qed.

Lemma get_lookup d i : 0 ≤ i < len d → d !! Z.to_nat i = Some (get d i).
Proof.
  unfold len, get. intros Hi.
  destruct (lookup_lt_is_Some_2 d (Z.to_nat i)) as [x Hx]; [lia|].
  by rewrite Hx.
Qed.

Lemma get_upd_eq d i v : 0 ≤ i < len d → get (upd d i v) i = v.
Proof.
  unfold len, get, upd. intros Hi.
  rewrite list_lookup_insert_eq; [done | lia].
Qed.

Lemma get_upd_ne d i j v : 0 ≤ i → 0 ≤ j → i ≠ j → get (upd d i v) j = get d j.
Proof.
  unfold get, upd. intros Hi Hj Hne.
  rewrite list_lookup_insert_ne; [done | lia].
Qed.

Lemma get_upd d i j v :
  0 ≤ i < len d → 0 ≤ j →
  get (upd d i v) j = if decide (j = i) then v else get d j.
Proof.
  intros Hi Hj. case_decide as Hij.
  - subst. by apply get_upd_eq.
  - apply get_upd_ne; lia.
Qed.

Ltac len_lia := rewrite ?len_upd; lia.

(** Case analysis of every lookup in an updated list. *)
Ltac get_upd_cases :=
  repeat (rewrite get_upd by len_lia; case_decide; try lia).

Lemma list_ext_get d1 d2 :
  len d1 = len d2 → (∀ i, 0 ≤ i < len d1 → get d1 i = get d2 i) → d1 = d2.
Proof.
  unfold len. intros Hlen Hget. apply list_eq_same_length with (length d1); [lia | lia |].
  intros i x y Hi Hx Hy.
  specialize (Hget (Z.of_nat i)). unfold get in Hget.
  rewrite Nat2Z.id, Hx, Hy in Hget. simpl in Hget. apply Hget. unfold len. lia.
Qed.

Lemma sorted_range_Sorted d : sorted_range d 0 (len d) → Sorted Z.le d.
Proof.
  induction d as [|x d IH]; intros Hs; [constructor|].
  assert (Hshift : ∀ k, 0 ≤ k → get (x :: d) (k + 1) = get d k).
  { intros k Hk. unfold get. replace (Z.to_nat (k + 1)) with (S (Z.to_nat k)) by lia. done. }
  constructor.
  - apply IH. intros a b Ha Hab Hb.
    rewrite <- !Hshift by lia. apply Hs; unfold len in *; simpl length; lia.
  - destruct d as [|y d]; constructor.
    apply (Hs 0 1); unfold len; simpl length; lia.
Qed.

Lemma py_index_in_range n i : 0 ≤ i < n → py_index n i = Some (Z.to_nat i).
Proof.
  intros Hi. unfold py_index.
  destruct (Z.leb_spec 0 i), (Z.ltb_spec i n); simpl; done || lia.
Qed.

Lemma lookup_insert_swap_head (d : list Z) j x y :
  d !! j = Some y → y :: <[j := x]> d ≡ₚ x :: d.
Proof.
  revert j. induction d as [|a d IH]; intros [|j] Hj; simplify_eq/=.
  - apply perm_swap.
  - rewrite perm_swap. rewrite (IH _ Hj). apply perm_swap.
Qed.

Lemma insert_swap_perm (d : list Z) i j x y :
  d !! i = Some x → d !! j = Some y → <[j := x]> (<[i := y]> d) ≡ₚ d.
Proof.
  revert i j. induction d as [|a d IH]; intros [|i] [|j] Hi Hj; simplify_eq/=.
  - done.
  - by apply lookup_insert_swap_head.
  - by apply lookup_insert_swap_head.
  - constructor. by apply IH.
Qed.

Lemma swap_perm d i j :
  0 ≤ i < len d → 0 ≤ j < len d → upd (upd d i (get d j)) j (get d i) ≡ₚ d.
Proof.
  intros Hi Hj. unfold upd. apply insert_swap_perm; by apply get_lookup.
Qed.

(** ** Running the monad *)

Lemma bind_run {A B} (m : Gen A) (f : A → Gen B) d t1 d1 a t2 d2 r :
  m d = (t1, d1, Ok a) → f a d1 = (t2, d2, r) → (m ≫= f) d = (t1 ++ t2, d2, r).
Proof. intros Hm Hf. unfold mbind, Gen_bind, gen_bind. by rewrite Hm, Hf. Qed.

Lemma bind_ok {A B} (m : Gen A) (f : A → Gen B) d t1 d1 a :
  m d = (t1, d1, Ok a) →
  (m ≫= f) d = match f a d1 with (t2, d2, r) => (t1 ++ t2, d2, r) end.
Proof. intros Hm. unfold mbind, Gen_bind, gen_bind. by rewrite Hm. Qed.

Lemma bind_inv {A B} (m : Gen A) (f : A → Gen B) d t d' b :
  (m ≫= f) d = (t, d', Ok b) →
  ∃ t1 d1 a t2, m d = (t1, d1, Ok a) ∧ f a d1 = (t2, d', Ok b) ∧ t = t1 ++ t2.
Proof.
  unfold mbind, Gen_bind, gen_bind.
  destruct (m d) as [[t1 d1] [a|e]]; [|done].
  destruct (f a d1) as [[t2 d2] r] eqn:Hf. intros [= <- <- ->].
  by exists t1, d1, a, t2.
Qed.

Lemma ret_run {A} (a : A) d : (mret a : Gen A) d = ([], d, Ok a).
Proof. done. Qed.

Lemma getitem_run d i : 0 ≤ i < len d → getitem i d = ([EvRead i], d, Ok (get d i)).
Proof.
  intros Hi. unfold getitem. rewrite py_index_in_range by done. simpl.
  by rewrite get_lookup.
Qed.

Lemma setitem_run d i v :
  0 ≤ i < len d → setitem i v d = ([EvWrite i v], upd d i v, Ok tt).
Proof. intros Hi. unfold setitem. by rewrite py_index_in_range. Qed.

Lemma swap_run d i j :
  0 ≤ i < len d → 0 ≤ j < len d →
  swap i j d =
    ([EvRead j; EvRead i; EvWrite i (get d j); EvWrite j (get d i)],
     upd (upd d i (get d j)) j (get d i), Ok tt).
Proof.
  intros Hi Hj. unfold swap.
  rewrite (bind_ok _ _ _ _ _ _ (getitem_run d j Hj)).
  rewrite (bind_ok _ _ _ _ _ _ (getitem_run d i Hi)).
  rewrite (bind_ok _ _ _ _ _ _ (setitem_run d i (get d j) Hi)).
  rewrite setitem_run by (by rewrite len_upd). done.
Qed.

Lemma range_nil lo hi : hi ≤ lo → range lo hi = [].
Proof. intros H. unfold range, seqZ. by replace (Z.to_nat (hi - lo)) with 0%nat by lia. Qed.

Lemma range_cons lo hi : lo < hi → range lo hi = lo :: range (lo + 1) hi.
Proof.
  intros H. unfold range. rewrite seqZ_cons by lia. f_equal. f_equal; lia.
Qed.

(** Invariant rule for [for i in range(lo, hi)]: the invariant relates
    the next index, the loop's variables, the events so far and the
    content of [data]. *)
Lemma for_range_inv {S} (I : Z → S → list event → list Z → Prop)
    (body : Z → S → Gen S) lo hi s0 t0 d0 :
  lo ≤ hi →
  I lo s0 t0 d0 →
  (∀ i s t d, lo ≤ i < hi → I i s t d →
     ∃ t' d' s', body i s d = (t', d', Ok s') ∧ I (i + 1) s' (t ++ t') d') →
  ∃ t d s, for_fold (range lo hi) s0 body d0 = (t, d, Ok s) ∧ I hi s (t0 ++ t) d.
Proof.
  intros Hle. remember (Z.to_nat (hi - lo)) as k eqn:Hk.
  revert lo s0 t0 d0 Hle Hk.
  induction k as [|k IH]; intros lo s0 t0 d0 Hle Hk H0 Hstep.
  - assert (hi = lo) as -> by lia. rewrite range_nil by lia.
    exists [], d0, s0. by rewrite app_nil_r.
  - rewrite range_cons by lia. simpl.
    destruct (Hstep lo s0 t0 d0) as (t1 & d1 & s1 & Hb & H1); [lia | done |].
    destruct (IH (lo + 1) s1 (t0 ++ t1) d1) as (t2 & d2 & s2 & Hr & H2); [lia | lia | done | |].
    { intros i s t d Hi. apply Hstep. lia. }
    exists (t1 ++ t2), d2, s2. split.
    + by apply bind_run with d1 s1.
    + by rewrite app_assoc.
Qed.

Tactic Notation "for_range_invariant" constr(I) "from" constr(t0) "at" constr(d)
    "as" simple_intropattern(p) :=
  match goal with
  | |- context [for_fold (range ?lo ?hi) ?s0 ?body] =>
      destruct (for_range_inv I body lo hi s0 t0 d) as p
  end.

(** The same loop when the bounds leave nothing to do. *)
Lemma for_range_empty {S} (body : Z → S → Gen S) lo hi s0 d0 :
  hi ≤ lo → for_fold (range lo hi) s0 body d0 = ([], d0, Ok s0).
Proof. intros H. by rewrite range_nil. Qed.

Lemma for_each_range_inv (I : Z → list event → list Z → Prop)
    (body : Z → Gen unit) lo hi t0 d0 :
  lo ≤ hi →
  I lo t0 d0 →
  (∀ i t d, lo ≤ i < hi → I i t d →
     ∃ t' d', body i d = (t', d', Ok tt) ∧ I (i + 1) (t ++ t') d') →
  ∃ t d, for_each (range lo hi) body d0 = (t, d, Ok tt) ∧ I hi (t0 ++ t) d.
Proof.
  intros Hle H0 Hstep. unfold for_each.
  destruct (for_range_inv (λ i (_ : unit), I i) (λ x _, body x) lo hi tt t0 d0)
    as (t & d & [] & Hrun & HI); [done | done | | by exists t, d].
  intros i [] t d Hi HI. destruct (Hstep i t d Hi HI) as (t' & d' & Hb & HI').
  by exists t', d', tt.
Qed.

Tactic Notation "for_each_invariant" constr(I) "from" constr(t0) "at" constr(d)
    "as" simple_intropattern(p) :=
  match goal with
  | |- context [for_each (range ?lo ?hi) ?body] =>
      destruct (for_each_range_inv I body lo hi t0 d) as p
  end.

(** ** Rearrangements within a range *)

Lemma permuted_within_refl lo hi d : permuted_within lo hi d d.
Proof. split; [done | done | done | intros k Hk; by exists k]. Qed.

Lemma permuted_within_trans lo hi d1 d2 d3 :
  permuted_within lo hi d1 d2 → permuted_within lo hi d2 d3 → permuted_within lo hi d1 d3.
Proof.
  intros [L1 P1 O1 I1] [L2 P2 O2 I2]. split.
  - congruence.
  - by etrans.
  - intros k Hk Hout. rewrite O2, O1; done.
  - intros k Hk. destruct (I2 k Hk) as (k1 & Hk1 & ->).
    destruct (I1 k1 Hk1) as (k2 & Hk2 & ->). by exists k2.
Qed.

Lemma permuted_within_weaken lo hi lo' hi' d d' :
  0 ≤ lo → lo' ≤ lo → hi ≤ hi' → 0 ≤ lo' →
  permuted_within lo hi d d' → permuted_within lo' hi' d d'.
Proof.
  intros H0 Hlo Hhi H0' [L P O I]. split; [done | done | |].
  - intros k Hk Hout. apply O; lia.
  - intros k Hk. destruct (decide (lo ≤ k < hi)) as [Hin|Hout].
    + destruct (I k Hin) as (k' & Hk' & ->). exists k'. split; [lia | done].
    + exists k. split; [done|]. apply O; lia.
Qed.

Lemma permuted_within_swap lo hi d i j :
  0 ≤ lo → hi ≤ len d → lo ≤ i < hi → lo ≤ j < hi →
  permuted_within lo hi d (upd (upd d i (get d j)) j (get d i)).
Proof.
  intros H0 Hhi Hi Hj. split.
  - by rewrite !len_upd.
  - symmetry. apply swap_perm; lia.
  - intros k Hk Hout. rewrite !get_upd_ne; [done | lia..].
  - intros k Hk. rewrite get_upd by (rewrite ?len_upd; lia).
    case_decide; [exists i; by split|].
    rewrite get_upd by lia. case_decide; [exists j; by split | exists k; by split].
Qed.

Lemma tail_sorted_permuted d d' m :
  0 ≤ m → permuted_within 0 m d d' → tail_sorted d m → tail_sorted d' m.
Proof.
  intros Hm [L P O I] Ht a b Ha Hab Hmb Hb.
  rewrite (O b) by lia. rewrite L in Hb.
  destruct (decide (a < m)) as [Hlt|Hge].
  - destruct (I a) as (k & Hk & ->); [lia|]. apply Ht; lia.
  - rewrite (O a) by lia. apply Ht; lia.
Qed.

Lemma head_sorted_permuted d d' m :
  0 ≤ m → permuted_within m (len d) d d' → head_sorted d m → head_sorted d' m.
Proof.
  intros Hm [L P O I] Hh a b Ha Ham Hab Hb.
  rewrite (O a) by lia. rewrite L in Hb.
  destruct (decide (b < m)) as [Hlt|Hge].
  - rewrite (O b) by lia. apply Hh; lia.
  - destruct (I b) as (k & Hk & ->); [lia|]. apply Hh; lia.
Qed.

Lemma tail_sorted_all d : tail_sorted d 0 → sorted_range d 0 (len d).
Proof. intros Ht a b Ha Hab Hb. apply Ht; lia. Qed.

Lemma head_sorted_all d : head_sorted d (len d) → sorted_range d 0 (len d).
Proof. intros Hh a b Ha Hab Hb. apply Hh; lia. Qed.

(** ** Traces made of blocks *)

Lemma made_of_nil P : made_of P 0 [].
Proof. exists []. by repeat split. Qed.

Lemma made_of_snoc P c t b : made_of P c t → P b → made_of P (S c) (t ++ b).
Proof.
  intros (steps & -> & <- & Hall) Hb. exists (steps ++ [b]). split; [|split].
  - rewrite concat_app. simpl. by rewrite app_nil_r.
  - rewrite length_app. simpl. lia.
  - apply Forall_app. by split; [|constructor].
Qed.

Lemma made_of_cons P c t b : P b → made_of P c t → made_of P (S c) (b ++ t).
Proof.
  intros Hb (steps & -> & <- & Hall). exists (b :: steps). split; [done|].
  split; [done|]. by constructor.
Qed.

Lemma made_of_app P c1 c2 t1 t2 :
  made_of P c1 t1 → made_of P c2 t2 → made_of P (c1 + c2) (t1 ++ t2).
Proof.
  intros (s1 & -> & <- & H1) (s2 & -> & <- & H2). exists (s1 ++ s2). split; [|split].
  - by rewrite concat_app.
  - by rewrite length_app.
  - by apply Forall_app.
Qed.

Lemma snapshots_app t1 t2 : snapshots (t1 ++ t2) = snapshots t1 ++ snapshots t2.
Proof. apply omap_app. Qed.

(** ** Bubble sort *)

(** One inner iteration: [if data[j] > data[j + 1]: swap; yield data]. *)
Lemma bubble_iteration_run d j :
  0 ≤ j → j + 1 < len d →
  (a ← getitem j; b ← getitem (j + 1);
   if a >? b then swap j (j + 1);; yield_data else mret tt) d =
  if get d j >? get d (j + 1) then
    let d' := upd (upd d j (get d (j + 1))) (j + 1) (get d j) in
    (bubble_compare j ++ bubble_swap j (get d (j + 1)) (get d j) d', d', Ok tt)
  else (bubble_compare j, d, Ok tt).
Proof.
  intros Hj Hj1.
  rewrite (bind_ok _ _ _ _ _ _ (getitem_run d j ltac:(lia))).
  rewrite (bind_ok _ _ _ _ _ _ (getitem_run d (j + 1) ltac:(lia))).
  destruct (get d j >? get d (j + 1)); [|done].
  rewrite (bind_ok _ _ _ _ _ _ (swap_run d j (j + 1) ltac:(lia) ltac:(lia))).
  done.
Qed.

(** One pass: the largest element of [d[0 .. n-i-1]] bubbles up to
    position [n-i-1]. *)
Lemma bubble_pass d n i :
  len d = n → 0 ≤ i < n → tail_sorted d (n - i) →
  ∃ t d',
    for_each (range 0 (n - i - 1)) (λ j,
      a ← getitem j; b ← getitem (j + 1);
      if a >? b then swap j (j + 1);; yield_data else mret tt) d = (t, d', Ok tt)
    ∧ permuted_within 0 (n - i) d d'
    ∧ tail_sorted d' (n - i - 1)
    ∧ bubble_trace (Z.to_nat (n - i - 1)) t.
Proof.
  intros Hn Hi Htail.
  for_each_invariant
    (λ j t d', permuted_within 0 (n - i) d d'
               ∧ (∀ a, 0 ≤ a → a ≤ j → get d' a ≤ get d' j)
               ∧ bubble_trace (Z.to_nat j) t)
    from (@nil event) at d
    as (t & d' & Hrun & Hpw & Hmax & Htr); [| | | exists t, d'; split; [exact Hrun|]].
  - lia.
  - split; [apply permuted_within_refl|]. split.
    + intros a Ha Ha0. by replace a with 0 by lia.
    + apply made_of_nil.
  - intros j t d1 Hj (Hpw & Hmax & Htr).
    assert (len d1 = n) as Hlen by (rewrite (pw_len _ _ _ _ Hpw); done).
    rewrite bubble_iteration_run by lia.
    replace (Z.to_nat (j + 1)) with (S (Z.to_nat j)) by lia.
    destruct (Z.gtb_spec (get d1 j) (get d1 (j + 1))) as [Hgt|Hle].
    + eexists _, _. split; [done|]. split; [|split].
      * eapply permuted_within_trans; [exact Hpw|].
        apply permuted_within_swap; lia.
      * intros a Ha Haj. rewrite (get_upd_eq _ (j + 1)) by len_lia.
        get_upd_cases. apply Hmax; lia.
      * apply made_of_snoc; [done|]. exists j. right.
        eexists _, _, _. split; [exact Hgt|]. split; [|split; [|done]].
        -- rewrite get_upd_ne by lia. apply get_upd_eq. lia.
        -- apply get_upd_eq. len_lia.
    + eexists _, _. split; [done|]. split; [done|]. split.
      * intros a Ha Haj. destruct (decide (a = j + 1)) as [->|]; [lia|].
        etrans; [apply Hmax; lia | done].
      * apply made_of_snoc; [done|]. exists j. by left.
  - split; [done|]. split; [|by rewrite app_nil_l in Htr].
    assert (len d' = n) as Hlen by (rewrite (pw_len _ _ _ _ Hpw); done).
    pose proof (tail_sorted_permuted d d' (n - i) ltac:(lia) Hpw Htail) as Ht'.
    intros a b Ha Hab Hb Hbn.
    destruct (decide (b = n - i - 1)) as [->|]; [by apply Hmax | apply Ht'; lia].
Qed.

(** Functional correctness and trace shape of bubble sort. *)
Lemma bubble_sort_spec D :
  ∃ t D',
    BubbleSort.wrapped_sort D = (t, D', Ok tt)
    ∧ D ≡ₚ D'
    ∧ sorted_range D' 0 (len D')
    ∧ ∃ c, bubble_trace c t ∧ 2 * Z.of_nat c = len D * (len D - 1).
Proof.
  unfold BubbleSort.wrapped_sort.
  rewrite (bind_ok len_data _ D [] D (len D) eq_refl).
  set (n := len D).
  for_each_invariant
    (λ i t d, permuted_within 0 n D d
              ∧ tail_sorted d (n - i)
              ∧ ∃ c, bubble_trace c t ∧ 2 * Z.of_nat c = i * (2 * n - i - 1))
    from (@nil event) at D
    as (t & D' & Hrun & Hpw & Htail & c & Htr & Hc); [| | | exists t, D'].
  - apply len_nonneg.
  - split; [apply permuted_within_refl|]. split.
    + intros a b Ha Hab Hb Hbn. fold n in Hbn. lia.
    + exists 0%nat. split; [apply made_of_nil | lia].
  - intros i t d Hi (Hpw & Htail & c & Htr & Hc).
    assert (len d = n) as Hlen by (rewrite (pw_len _ _ _ _ Hpw); done).
    destruct (bubble_pass d n i Hlen Hi Htail) as (t' & d' & Hrun & Hpw' & Htail' & Htr').
    exists t', d'. split; [exact Hrun|]. split; [|split].
    + eapply permuted_within_trans; [exact Hpw|].
      eapply permuted_within_weaken; [| | | |exact Hpw']; lia.
    + by replace (n - (i + 1)) with (n - i - 1) by lia.
    + exists (c + Z.to_nat (n - i - 1))%nat. split; [by apply made_of_app | nia].
  - rewrite Hrun. simpl. split; [done|].
    assert (len D' = n) as Hlen by (rewrite (pw_len _ _ _ _ Hpw); done).
    split; [apply (pw_perm _ _ _ _ Hpw)|]. split.
    + apply tail_sorted_all. by replace (n - n) with 0 in Htail by lia.
    + exists c. split; [done | nia].
Qed.

(** ** Selection sort *)

(** The scan for the minimum of [d[i .. n-1]]: it changes nothing, yields
    nothing, and returns the first position of the least element. *)
Lemma selection_scan d n i :
  len d = n → 0 ≤ i < n →
  ∃ t m,
    for_fold (range (i + 1) n) i (λ j min_idx,
      a ← getitem j; b ← getitem min_idx;
      if a <? b then mret j else mret min_idx) d = (t, d, Ok m)
    ∧ i ≤ m < n
    ∧ (∀ b, i ≤ b → b < n → get d m ≤ get d b)
    ∧ snapshots t = [].
Proof.
  intros Hn Hi.
  for_range_invariant
    (λ j m t d', d' = d ∧ i ≤ m < j ∧ (∀ b, i ≤ b → b < j → get d m ≤ get d b)
                 ∧ snapshots t = [])
    from (@nil event) at d
    as (t & d' & m & Hrun & -> & Hm & Hmin & Hsn); [| | | exists t, m].
  - lia.
  - split; [done|]. split; [lia|]. split; [|done].
    intros b Hb1 Hb2. by replace b with i by lia.
  - intros j m t d' Hj (-> & Hm & Hmin & Hsn).
    rewrite (bind_ok _ _ _ _ _ _ (getitem_run d j ltac:(lia))).
    rewrite (bind_ok _ _ _ _ _ _ (getitem_run d m ltac:(lia))).
    destruct (Z.ltb_spec (get d j) (get d m)) as [Hlt|Hge].
    + eexists _, _, _. split; [done|]. split; [done|]. split; [lia|]. split.
      * intros b Hb1 Hb2. destruct (decide (b = j)) as [->|]; [lia|].
        etrans; [|apply (Hmin b); lia]. lia.
      * rewrite snapshots_app, Hsn. done.
    + eexists _, _, _. split; [done|]. split; [done|]. split; [lia|]. split.
      * intros b Hb1 Hb2. destruct (decide (b = j)) as [->|]; [lia|].
        apply Hmin; lia.
      * rewrite snapshots_app, Hsn. done.
  - split; [done|]. split; [lia|]. by split.
Qed.

(** Functional correctness and trace shape of selection sort. *)
Lemma selection_sort_spec D :
  ∃ t D',
    SelectionSort.wrapped_sort D = (t, D', Ok tt)
    ∧ D ≡ₚ D'
    ∧ sorted_range D' 0 (len D')
    ∧ made_of selection_block (length D) t.
Proof.
  unfold SelectionSort.wrapped_sort.
  rewrite (bind_ok len_data _ D [] D (len D) eq_refl).
  set (n := len D).
  for_each_invariant
    (λ i t d, permuted_within 0 n D d
              ∧ head_sorted d i
              ∧ made_of selection_block (Z.to_nat i) t)
    from (@nil event) at D
    as (t & D' & Hrun & Hpw & Hhead & Htr); [| | | exists t, D'].
  - apply len_nonneg.
  - split; [apply permuted_within_refl|]. split; [|apply made_of_nil].
    intros a b Ha Hai. lia.
  - intros i t d Hi (Hpw & Hhead & Htr).
    assert (len d = n) as Hlen by (rewrite (pw_len _ _ _ _ Hpw); done).
    destruct (selection_scan d n i Hlen Hi) as (t1 & m & Hscan & Hm & Hmin & Hsn).
    rewrite (bind_ok _ _ _ _ _ _ Hscan).
    rewrite (bind_ok _ _ _ _ _ _ (swap_run d i m ltac:(lia) ltac:(lia))).
    unfold yield_data.
    set (d' := upd (upd d i (get d m)) m (get d i)).
    assert (permuted_within i n d d') as Hsw by (apply permuted_within_swap; lia).
    eexists _, _. split; [done|]. split; [|split].
    + eapply permuted_within_trans; [exact Hpw|].
      eapply permuted_within_weaken; [| | | |exact Hsw]; lia.
    + rewrite <- Hlen in Hsw.
      pose proof (head_sorted_permuted d d' i ltac:(lia) Hsw Hhead) as Hh'.
      intros a b Ha Hai Hab Hb.
      destruct (decide (a = i)) as [->|]; [|apply Hh'; lia].
      rewrite (pw_len _ _ _ _ Hsw) in Hb.
      destruct (pw_inside _ _ _ _ Hsw b ltac:(lia)) as (k & Hk & ->).
      assert (get d' i = get d m) as ->.
      { unfold d'. rewrite get_upd by len_lia. case_decide; [by subst|].
        apply get_upd_eq. lia. }
      apply Hmin; lia.
    + replace (Z.to_nat (i + 1)) with (S (Z.to_nat i)) by lia.
      apply made_of_snoc; [done|].
      eexists (t1 ++ _), d'. split; [by rewrite <- app_assoc|].
      rewrite snapshots_app, Hsn. done.
  - rewrite Hrun. simpl. split; [done|].
    assert (len D' = n) as Hlen by (rewrite (pw_len _ _ _ _ Hpw); done).
    split; [apply (pw_perm _ _ _ _ Hpw)|]. split.
    + apply head_sorted_all. by rewrite Hlen.
    + by replace (length D) with (Z.to_nat n) by (unfold n, len; lia).
Qed.

(** ** Insertion sort *)

Lemma upd_same d i : 0 ≤ i < len d → upd d i (get d i) = d.
Proof. intros Hi. unfold upd. apply list_insert_id. by apply get_lookup. Qed.

(** The shifting loop keeps a hole at [j + 1]: everything else of
    [d[0 .. i]] is in order, what lies right of the hole is greater than
    [key], and putting [key] into the hole gives a rearrangement of the
    original list. *)
Lemma shift_loop_spec D n i key fuel : ∀ j d,
  len d = n → 0 ≤ i < n → -1 ≤ j < i → (Z.to_nat (j + 1) ≤ fuel)%nat →
  (∀ a b, 0 ≤ a → a ≤ b → b ≤ i → a ≠ j + 1 → b ≠ j + 1 → get d a ≤ get d b) →
  (∀ b, j + 1 < b → b ≤ i → key < get d b) →
  D ≡ₚ upd d (j + 1) key →
  ∃ t d' j',
    InsertionSort.shift_loop fuel key j d = (t, d', Ok j')
    ∧ len d' = n ∧ -1 ≤ j' < i
    ∧ (∀ a b, 0 ≤ a → a ≤ b → b ≤ i → a ≠ j' + 1 → b ≠ j' + 1 → get d' a ≤ get d' b)
    ∧ (∀ b, j' + 1 < b → b ≤ i → key < get d' b)
    ∧ D ≡ₚ upd d' (j' + 1) key
    ∧ (0 ≤ j' → get d' j' ≤ key).
Proof.
  induction fuel as [|fuel IH]; intros j d Hn Hi Hj Hfuel Hord Hgt Hperm.
  - assert (j = -1) as -> by lia. simpl.
    exists [], d, (-1). repeat split; try done; lia.
  - simpl. destruct (Z.geb_spec j 0) as [Hj0|Hj0]; cycle 1.
    { exists [], d, j. repeat split; try done; lia. }
    rewrite (bind_ok _ _ _ _ _ _ (getitem_run d j ltac:(lia))).
    destruct (Z.ltb_spec key (get d j)) as [Hlt|Hge]; cycle 1.
    { exists [EvRead j], d, j. rewrite ret_run. simpl. repeat split; try done; lia. }
    rewrite (bind_ok _ _ _ _ _ _ (getitem_run d j ltac:(lia))).
    rewrite (bind_ok _ _ _ _ _ _ (setitem_run d (j + 1) (get d j) ltac:(lia))).
    set (d1 := upd d (j + 1) (get d j)).
    rewrite (bind_ok yield_data _ d1 [EvYield d1] d1 tt eq_refl).
    destruct (IH (j - 1) d1) as (t & d' & j' & Hrun & Hn' & Hj' & Hord' & Hgt' & Hperm' & Hexit).
    + unfold d1. len_lia.
    + done.
    + lia.
    + lia.
    + intros a b Ha Hab Hb Haj Hbj. unfold d1. get_upd_cases; apply Hord; lia.
    + intros b Hb1 Hb2. unfold d1. get_upd_cases. apply Hgt; lia.
    + rewrite Hperm. replace (j - 1 + 1) with j by lia.
      set (v := upd d (j + 1) key).
      enough (upd d1 j key = upd (upd v j (get v (j + 1))) (j + 1) (get v j)) as ->
        by (symmetry; apply swap_perm; unfold v; len_lia).
      unfold v, d1.
      apply list_ext_get; [len_lia|]. intros k Hk. rewrite !len_upd in Hk.
      get_upd_cases.
    + rewrite Hrun. exists ([EvRead j; EvRead j; EvWrite (j + 1) (get d j); EvYield d1] ++ t), d', j'.
      split; [done|]. repeat split; try done; lia.
Qed.

(** Functional correctness of insertion sort. *)
Lemma insertion_sort_spec D :
  ∃ t D',
    InsertionSort.wrapped_sort D = (t, D', Ok tt)
    ∧ D ≡ₚ D'
    ∧ sorted_range D' 0 (len D').
Proof.
  unfold InsertionSort.wrapped_sort.
  rewrite (bind_ok len_data _ D [] D (len D) eq_refl).
  set (n := len D).
  destruct (decide (n = 0)) as [Hn0|Hn0].
  { unfold for_each. rewrite for_range_empty by lia. exists [], D.
    split; [done|]. split; [done|]. intros a b Ha Hab Hb. fold n in Hb. lia. }
  assert (0 < n) as Hnpos by (pose proof (len_nonneg D); fold n in H; lia).
  for_each_invariant
    (λ i (t : list event) d, len d = n ∧ D ≡ₚ d ∧ sorted_range d 0 i)
    from (@nil event) at D
    as (t & D' & Hrun & Hlen & Hperm & Hsorted); [| | | exists t, D'].
  - lia.
  - split; [done|]. split; [done|]. intros a b Ha Hab Hb. by replace b with a by lia.
  - intros i t d Hi (Hlen & Hperm & Hsorted).
    rewrite (bind_ok _ _ _ _ _ _ (getitem_run d i ltac:(lia))).
    destruct (shift_loop_spec D n i (get d i) (Z.to_nat i) (i - 1) d)
      as (t1 & d1 & j & Hloop & Hlen1 & Hj & Hord & Hgt & Hperm1 & Hexit);
      [done | lia | lia | lia | | | |].
    + intros a b Ha Hab Hb Hai Hbi. apply Hsorted; lia.
    + intros b Hb1 Hb2. lia.
    + replace (i - 1 + 1) with i by lia. by rewrite upd_same by lia.
    + rewrite (bind_ok _ _ _ _ _ _ Hloop).
      rewrite (bind_ok _ _ _ _ _ _ (setitem_run d1 (j + 1) (get d i) ltac:(lia))).
      unfold yield_data. eexists _, _. split; [done|].
      split; [len_lia|]. split; [done|].
      intros a b Ha Hab Hb. get_upd_cases.
      * apply Z.lt_le_incl. apply Hgt; lia.
      * etrans; [|apply Hexit; lia]. apply Hord; lia.
      * apply Hord; lia.
  - rewrite Hrun. simpl. split; [done|]. split; [done|]. by rewrite Hlen.
Qed.

(** ** Quick sort *)

(** Lomuto partition of [d[low .. high]] around the pivot [d[high]]. *)
Lemma partition_spec d low high :
  0 ≤ low → low ≤ high → high < len d →
  ∃ ops d' p,
    QuickSort._partition low high d = (EvPartition low high :: ops, d', Ok p)
    ∧ Forall is_access ops
    ∧ low ≤ p ≤ high
    ∧ permuted_within low (high + 1) d d'
    ∧ get d' p = get d high
    ∧ (∀ a, low ≤ a → a < p → get d' a ≤ get d' p)
    ∧ (∀ a, p < a → a ≤ high → get d' p < get d' a).
Proof.
  intros Hlow Hlh Hhigh. unfold QuickSort._partition.
  rewrite (bind_ok (log _) _ d [EvPartition low high] d tt eq_refl).
  rewrite (bind_ok _ _ _ _ _ _ (getitem_run d high ltac:(lia))).
  set (pivot := get d high).
  for_range_invariant
    (λ j i t d', permuted_within low high d d'
                 ∧ low - 1 ≤ i < j
                 ∧ (∀ a, low ≤ a → a ≤ i → get d' a ≤ pivot)
                 ∧ (∀ a, i < a → a < j → pivot < get d' a)
                 ∧ Forall is_access t)
    from [EvRead high] at d
    as (t & d1 & i & Hrun & Hpw & Hi & Hle & Hgt & Hacc); [| | |].
  - done.
  - split; [apply permuted_within_refl|]. split; [lia|].
    split; [intros; lia|]. split; [intros; lia|]. by repeat constructor.
  - intros j i t d1 Hj (Hpw & Hi & Hle & Hgt & Hacc).
    assert (len d1 = len d) as Hlen by apply (pw_len _ _ _ _ Hpw).
    rewrite (bind_ok _ _ _ _ _ _ (getitem_run d1 j ltac:(lia))).
    destruct (Z.leb_spec (get d1 j) pivot) as [Hjle|Hjgt].
    + rewrite (bind_ok _ _ _ _ _ _ (swap_run d1 (i + 1) j ltac:(lia) ltac:(lia))).
      rewrite ret_run. eexists _, _, _. split; [done|].
      split; [|split; [lia|split; [|split]]].
      * eapply permuted_within_trans; [exact Hpw|].
        apply permuted_within_swap; lia.
      * intros a Ha Hai.
        get_upd_cases; first [lia | apply Hle; lia | replace (i + 1) with j by lia; lia].
      * intros a Ha Haj. get_upd_cases; apply Hgt; lia.
      * apply Forall_app. split; [done|]. by repeat constructor.
    + rewrite ret_run. eexists _, _, _. split; [done|].
      split; [done|]. split; [lia|]. split; [done|]. split.
      * intros a Ha Haj. destruct (decide (a = j)) as [->|]; [done | apply Hgt; lia].
      * apply Forall_app. split; [done|]. by repeat constructor.
  - assert (len d1 = len d) as Hlen by apply (pw_len _ _ _ _ Hpw).
    assert (get d1 high = pivot) as Hpiv by (apply (pw_outside _ _ _ _ Hpw); lia).
    rewrite (bind_ok _ _ _ _ _ _ Hrun).
    rewrite (bind_ok _ _ _ _ _ _ (swap_run d1 (i + 1) high ltac:(lia) ltac:(lia))).
    rewrite ret_run. rewrite Hpiv. simpl.
    set (d' := upd (upd d1 (i + 1) pivot) high (get d1 (i + 1))).
    assert (get d' (i + 1) = pivot) as Hp.
    { unfold d'. get_upd_cases; first [done | by replace (i + 1) with high by lia]. }
    eexists _, d', (i + 1). split; [done|].
    split; [|split; [lia|split; [|split; [|split]]]].
    + apply Forall_app in Hacc as [_ Hacc].
      constructor; [done|]. apply Forall_app. split; [done|]. by repeat constructor.
    + eapply permuted_within_trans.
      * eapply permuted_within_weaken; [| | | |exact Hpw]; lia.
      * unfold d'. rewrite <- Hpiv. apply permuted_within_swap; lia.
    + done.
    + intros a Ha Hap. rewrite Hp. unfold d'. get_upd_cases. apply Hle; lia.
    + intros a Ha Hap. rewrite Hp. unfold d'. get_upd_cases; apply Hgt; lia.
Qed.

Lemma sorted_range_short d lo hi : hi ≤ lo + 1 → sorted_range d lo hi.
Proof. intros H a b Ha Hab Hb. by replace b with a by lia. Qed.

(** Functional correctness and trace shape of the recursive quick sort,
    for any recursion budget of at least the size of the range. *)
Lemma quick_sort_spec fuel : ∀ low high d,
  0 ≤ low → high < len d → (Z.to_nat (high - low) ≤ fuel)%nat →
  ∃ t d',
    QuickSort._quick_sort fuel low high d = (t, d', Ok tt)
    ∧ permuted_within low (high + 1) d d'
    ∧ sorted_range d' low (high + 1)
    ∧ ∃ c, made_of quick_block c t.
Proof.
  induction fuel as [|fuel IH]; intros low high d Hlow Hhigh Hfuel.
  - simpl. destruct (Z.ltb_spec low high); [lia|].
    exists [], d. split; [done|]. split; [apply permuted_within_refl|].
    split; [apply sorted_range_short; lia|]. exists 0%nat. apply made_of_nil.
  - simpl. destruct (Z.ltb_spec low high) as [Hlt|Hge]; cycle 1.
    { exists [], d. split; [done|]. split; [apply permuted_within_refl|].
      split; [apply sorted_range_short; lia|]. exists 0%nat. apply made_of_nil. }
    destruct (partition_spec d low high) as (ops & d1 & p & Hpart & Hacc & Hp & Hpw1 & Hpiv & Hle & Hgt);
      [lia..|].
    assert (len d1 = len d) as Hlen1 by apply (pw_len _ _ _ _ Hpw1).
    destruct (IH low (p - 1) d1) as (t2 & d2 & Hleft & Hpw2 & Hs2 & c2 & Htr2); [lia..|].
    assert (len d2 = len d1) as Hlen2 by apply (pw_len _ _ _ _ Hpw2).
    destruct (IH (p + 1) high d2) as (t3 & d3 & Hright & Hpw3 & Hs3 & c3 & Htr3); [lia..|].
    replace (p - 1 + 1) with p in * by lia.
    rewrite (bind_ok _ _ _ _ _ _ Hpart).
    rewrite (bind_ok yield_data _ d1 [EvYield d1] d1 tt eq_refl).
    rewrite (bind_ok _ _ _ _ _ _ Hleft). rewrite Hright.
    eexists _, d3. split; [done|]. split; [|split].
    + eapply permuted_within_trans; [exact Hpw1|].
      eapply permuted_within_trans.
      * eapply permuted_within_weaken; [| | | |exact Hpw2]; lia.
      * eapply permuted_within_weaken; [| | | |exact Hpw3]; lia.
    + (* what the sorted halves hold, in terms of the partitioned list *)
      assert (∀ a, low ≤ a → a < p → get d3 a = get d2 a) as Hleft3.
      { intros a Ha Hap. apply (pw_outside _ _ _ _ Hpw3); lia. }
      assert (get d3 p = get d1 p) as Hmid.
      { rewrite (pw_outside _ _ _ _ Hpw3) by lia. apply (pw_outside _ _ _ _ Hpw2); lia. }
      assert (∀ a, low ≤ a → a < p → get d3 a ≤ get d1 p) as Hsmall.
      { intros a Ha Hap. rewrite Hleft3 by lia.
        destruct (pw_inside _ _ _ _ Hpw2 a ltac:(lia)) as (k & Hk & ->). apply Hle; lia. }
      assert (∀ b, p < b → b ≤ high → get d1 p < get d3 b) as Hlarge.
      { intros b Hb Hbh.
        destruct (pw_inside _ _ _ _ Hpw3 b ltac:(lia)) as (k & Hk & ->).
        rewrite (pw_outside _ _ _ _ Hpw2) by lia. apply Hgt; lia. }
      intros a b Ha Hab Hb.
      destruct (Z.lt_trichotomy a p) as [Hap|[->|Hap]],
               (Z.lt_trichotomy b p) as [Hbp|[->|Hbp]]; try lia.
      * rewrite !Hleft3 by lia. apply Hs2; lia.
      * rewrite Hmid. apply Hsmall; lia.
      * etrans; [apply Hsmall; lia|]. apply Z.lt_le_incl, Hlarge; lia.
      * rewrite Hmid. apply Z.lt_le_incl, Hlarge; lia.
      * apply Hs3; lia.
    + exists (S (c2 + c3)). simpl.
      replace (EvPartition low high :: ops ++ EvYield d1 :: t2 ++ t3)
        with ((EvPartition low high :: ops ++ [EvYield d1]) ++ (t2 ++ t3))
        by (simpl; by rewrite <- app_assoc).
      apply made_of_cons; [|by apply made_of_app].
      by exists low, high, ops, d1.
Qed.

(** ** Merge sort *)

Lemma py_slice_in_range d s e :
  0 ≤ s → s ≤ e → e ≤ len d → py_slice d s e = segment d s e.
Proof.
  intros Hs Hse He. unfold py_slice, py_slice_bound, segment.
  destruct (Z.ltb_spec s 0), (Z.ltb_spec e 0); try lia.
  by rewrite !Z.min_l by lia.
Qed.

Lemma len_segment d s e : 0 ≤ s → s ≤ e → e ≤ len d → len (segment d s e) = e - s.
Proof.
  unfold len, segment. intros Hs Hse He.
  rewrite length_take, length_drop. lia.
Qed.

Lemma get_segment d s e k :
  0 ≤ s → 0 ≤ k → k < e - s → get (segment d s e) k = get d (s + k).
Proof.
  unfold get, segment. intros Hs Hk Hke.
  rewrite lookup_take_lt by lia. rewrite lookup_drop.
  by replace (Z.to_nat s + Z.to_nat k)%nat with (Z.to_nat (s + k)) by lia.
Qed.

Lemma drop_get (l : list Z) k :
  0 ≤ k < len l → drop (Z.to_nat k) l = get l k :: drop (Z.to_nat (k + 1)) l.
Proof.
  intros Hk. replace (Z.to_nat (k + 1)) with (S (Z.to_nat k)) by lia.
  apply drop_S. by apply get_lookup.
Qed.

Lemma take_upd_next d i v :
  0 ≤ i < len d → take (Z.to_nat (i + 1)) (upd d i v) = take (Z.to_nat i) d ++ [v].
Proof.
  intros Hi. unfold upd. replace (Z.to_nat (i + 1)) with (S (Z.to_nat i)) by lia.
  rewrite (take_S_r _ _ v) by (apply list_lookup_insert_eq; unfold len in Hi; lia).
  by rewrite take_insert_ge by lia.
Qed.

Lemma drop_upd_before d i k v :
  0 ≤ i → i < k → drop (Z.to_nat k) (upd d i v) = drop (Z.to_nat k) d.
Proof. intros Hi Hik. unfold upd. apply drop_insert_lt. lia. Qed.

(** One iteration of the merge loop. *)
Lemma merge_iteration_run L R l r i d :
  0 ≤ l → l ≤ len L → 0 ≤ r → r ≤ len R → l + r < len L + len R → 0 ≤ i < len d →
  (take_left ←
     (if l <? len L then
        if r >=? len R then mret true
        else a ← local_getitem L l; b ← local_getitem R r; mret (a <=? b)
      else mret false);
   lr' ←
     (if take_left : bool then
        a ← local_getitem L l; setitem i a;; mret (l + 1, r)
      else
        b ← local_getitem R r; setitem i b;; mret (l, r + 1));
   yield_data;;
   mret lr') d =
  if merge_takes_left L R l r then
    ([EvWrite i (get L l); EvYield (upd d i (get L l))], upd d i (get L l), Ok (l + 1, r))
  else
    ([EvWrite i (get R r); EvYield (upd d i (get R r))], upd d i (get R r), Ok (l, r + 1)).
Proof.
  intros Hl HlL Hr HrR Hlr Hi. unfold merge_takes_left.
  unfold mbind, Gen_bind, gen_bind, mret, Gen_ret, gen_ret,
    local_getitem, setitem, yield_data.
  assert (py_index (len d) i = Some (Z.to_nat i)) as Ei
    by (by apply py_index_in_range).
  destruct (Z.ltb_spec l (len L)) as [HlL'|HlL'];
    destruct (Z.geb_spec r (len R)) as [HrR'|HrR']; simpl;
    rewrite ?(py_index_in_range (len L) l), ?(py_index_in_range (len R) r) by lia;
    simpl; rewrite ?(get_lookup L l), ?(get_lookup R r) by lia; simpl;
    try destruct (get L l <=? get R r); simpl;
    rewrite ?(py_index_in_range (len L) l), ?(py_index_in_range (len R) r) by lia;
    simpl; rewrite ?(get_lookup L l), ?(get_lookup R r) by lia; simpl;
    rewrite ?Ei; try done; lia.
Qed.

Lemma segments_split d left mid right :
  0 ≤ left → left ≤ mid + 1 → mid ≤ right →
  take (Z.to_nat left) d ++ segment d left (mid + 1) ++ segment d (mid + 1) (right + 1)
    ++ drop (Z.to_nat (right + 1)) d = d.
Proof.
  intros H0 H1 H2. unfold segment.
  rewrite app_assoc, take_take_drop.
  replace (Z.to_nat left + Z.to_nat (mid + 1 - left))%nat with (Z.to_nat (mid + 1)) by lia.
  rewrite app_assoc, take_take_drop.
  replace (Z.to_nat (mid + 1) + Z.to_nat (right + 1 - (mid + 1)))%nat
    with (Z.to_nat (right + 1)) by lia.
  apply take_drop.
Qed.

(** Merging the sorted halves [d[left .. mid]] and [d[mid+1 .. right]]. *)
Lemma merge_spec d left mid right :
  0 ≤ left → left ≤ mid → mid < right → right < len d →
  sorted_range d left (mid + 1) → sorted_range d (mid + 1) (right + 1) →
  ∃ t d',
    MergeSort._merge left mid right d = (t, d', Ok tt)
    ∧ rewritten_within left (right + 1) d d'
    ∧ sorted_range d' left (right + 1).
Proof.
  intros Hleft Hmid Hright Hlen HsL HsR. unfold MergeSort._merge.
  rewrite (bind_ok (getslice _ _) _ d _ d _ eq_refl).
  rewrite (bind_ok (getslice _ _) _ d _ d _ eq_refl).
  rewrite !py_slice_in_range by lia.
  set (L := segment d left (mid + 1)). set (R := segment d (mid + 1) (right + 1)).
  assert (len L = mid + 1 - left) as HlenL by (apply len_segment; lia).
  assert (len R = right - mid) as HlenR by (unfold R; rewrite len_segment; lia).
  assert (∀ a b, 0 ≤ a → a ≤ b → b < len L → get L a ≤ get L b) as HLs.
  { intros a b Ha Hab Hb. unfold L. rewrite !get_segment by lia. apply HsL; lia. }
  assert (∀ a b, 0 ≤ a → a ≤ b → b < len R → get R a ≤ get R b) as HRs.
  { intros a b Ha Hab Hb. unfold R. rewrite !get_segment by lia. apply HsR; lia. }
  for_range_invariant
    (λ i (lr : Z * Z) (t : list event) d',
       len d' = len d
       ∧ (0 ≤ lr.1 ∧ lr.1 ≤ len L) ∧ (0 ≤ lr.2 ∧ lr.2 ≤ len R) ∧ lr.1 + lr.2 = i - left
       ∧ take (Z.to_nat i) d' ++ drop (Z.to_nat lr.1) L ++ drop (Z.to_nat lr.2) R
           ++ drop (Z.to_nat (right + 1)) d' ≡ₚ d
       ∧ (∀ k, 0 ≤ k → k < left ∨ right + 1 ≤ k → get d' k = get d k)
       ∧ sorted_range d' left i
       ∧ (∀ a k, left ≤ a → a < i → lr.1 ≤ k → k < len L → get d' a ≤ get L k)
       ∧ (∀ a k, left ≤ a → a < i → lr.2 ≤ k → k < len R → get d' a ≤ get R k))
    from [EvSlice left (mid + 1); EvSlice (mid + 1) (right + 1)] at d
    as (t & d' & [l r] & Hrun & Hlen' & Hl & Hr & Hlr & Hperm & Hframe & Hsorted & _ & _).
  - lia.
  - simpl. split; [done|]. split; [lia|]. split; [lia|]. split; [lia|].
    split; [|split; [done|split; [|split]]].
    + change (Z.to_nat 0) with 0%nat. rewrite !drop_0.
      unfold L, R. by rewrite segments_split by lia.
    + apply sorted_range_short. lia.
    + intros; lia.
    + intros; lia.
  - intros i [l r] t d1 Hi (Hlen1 & Hl & Hr & Hlr & Hperm & Hframe & Hsorted & HbL & HbR).
    simpl in Hl, Hr, Hlr, Hperm, HbL, HbR. cbv beta iota.
    rewrite merge_iteration_run by lia.
    destruct (merge_takes_left L R l r) eqn:Htake; unfold merge_takes_left in Htake;
      rewrite Z.geb_leb in Htake.
    + (* the element comes from the left copy *)
      assert (l < len L ∧ ∀ k, r ≤ k → k < len R → get L l ≤ get R k) as [HlL Hmin].
      { apply andb_true_iff in Htake as [H1 H2]. apply Z.ltb_lt in H1. split; [done|].
        apply orb_true_iff in H2 as [H2|H2].
        - apply Z.leb_le in H2. intros; lia.
        - apply Z.leb_le in H2. intros k Hk1 Hk2. etrans; [exact H2 | apply HRs; lia]. }
      eexists _, _, _. split; [done|]. simpl.
      split; [len_lia|]. split; [lia|]. split; [lia|]. split; [lia|].
      split; [|split; [|split; [|split]]].
      * rewrite take_upd_next, drop_upd_before by lia.
        rewrite <- Hperm, (drop_get L l) by lia. by rewrite <- app_assoc.
      * intros k Hk Hout. rewrite get_upd_ne by lia. by apply Hframe.
      * intros a b Ha Hab Hb. get_upd_cases; [apply HbL; lia | apply Hsorted; lia].
      * intros a k Ha Hai Hk HkL. get_upd_cases; [apply HLs; lia | apply HbL; lia].
      * intros a k Ha Hai Hk HkR. get_upd_cases; [apply Hmin; lia | apply HbR; lia].
    + (* the element comes from the right copy *)
      assert (r < len R ∧ ∀ k, l ≤ k → k < len L → get R r ≤ get L k) as [HrR Hmin].
      { apply andb_false_iff in Htake as [H1|H2].
        - apply Z.ltb_ge in H1. split; [lia|]. intros; lia.
        - apply orb_false_iff in H2 as [H2 H3].
          apply Z.leb_gt in H2. apply Z.leb_gt in H3. split; [done|].
          intros k Hk1 Hk2. etrans; [apply Z.lt_le_incl; exact H3 | apply HLs; lia]. }
      eexists _, _, _. split; [done|]. simpl.
      split; [len_lia|]. split; [lia|]. split; [lia|]. split; [lia|].
      split; [|split; [|split; [|split]]].
      * rewrite take_upd_next, drop_upd_before by lia.
        rewrite <- Hperm, (drop_get R r) by lia.
        rewrite <- app_assoc. apply Permutation_app_head. simpl.
        by rewrite Permutation_middle.
      * intros k Hk Hout. rewrite get_upd_ne by lia. by apply Hframe.
      * intros a b Ha Hab Hb. get_upd_cases; [apply HbR; lia | apply Hsorted; lia].
      * intros a k Ha Hai Hk HkL. get_upd_cases; [apply Hmin; lia | apply HbL; lia].
      * intros a k Ha Hai Hk HkR. get_upd_cases; [apply HRs; lia | apply HbR; lia].
  - simpl in Hl, Hr, Hlr, Hperm.
    rewrite (bind_ok _ _ _ _ _ _ Hrun). rewrite ret_run.
    eexists _, d'. split; [done|]. split; [|done].
    split; [done|]. split; [|done].
    assert (l = len L) as -> by lia. assert (r = len R) as -> by lia.
    rewrite <- Hperm. unfold len. rewrite !Nat2Z.id, !drop_all. simpl.
    by rewrite take_drop.
Qed.

Lemma rewritten_within_refl lo hi d : rewritten_within lo hi d d.
Proof. by repeat split. Qed.

Lemma rewritten_within_trans lo hi d1 d2 d3 :
  rewritten_within lo hi d1 d2 → rewritten_within lo hi d2 d3 → rewritten_within lo hi d1 d3.
Proof.
  intros (L1 & P1 & O1) (L2 & P2 & O2). split; [congruence|]. split; [by etrans|].
  intros k Hk Hout. by rewrite O2, O1.
Qed.

Lemma rewritten_within_weaken lo hi lo' hi' d d' :
  lo' ≤ lo → hi ≤ hi' → rewritten_within lo hi d d' → rewritten_within lo' hi' d d'.
Proof.
  intros Hlo Hhi (L & P & O). split; [done|]. split; [done|].
  intros k Hk Hout. apply O; lia.
Qed.

Lemma sorted_range_outside lo hi a b d d' :
  0 ≤ a → (b ≤ lo ∨ hi ≤ a) →
  rewritten_within lo hi d d' → sorted_range d a b → sorted_range d' a b.
Proof.
  intros Ha Hdisj (L & P & O) Hs x y Hx Hxy Hy.
  rewrite !O by lia. by apply Hs.
Qed.

(** Functional correctness of the recursive merge sort, for any recursion
    budget of at least the size of the range. *)
Lemma merge_sort_spec fuel : ∀ left right d,
  0 ≤ left → right < len d → (Z.to_nat (right - left) ≤ fuel)%nat →
  ∃ t d',
    MergeSort._merge_sort fuel left right d = (t, d', Ok tt)
    ∧ rewritten_within left (right + 1) d d'
    ∧ sorted_range d' left (right + 1).
Proof.
  induction fuel as [|fuel IH]; intros left right d Hleft Hright Hfuel.
  - simpl. destruct (Z.ltb_spec left right); [lia|].
    exists [], d. split; [done|]. split; [apply rewritten_within_refl|].
    apply sorted_range_short; lia.
  - simpl. destruct (Z.ltb_spec left right) as [Hlt|Hge]; cycle 1.
    { exists [], d. split; [done|]. split; [apply rewritten_within_refl|].
      apply sorted_range_short; lia. }
    set (mid := (left + right) `div` 2).
    assert (left ≤ mid ∧ mid < right) as [Hm1 Hm2].
    { unfold mid. split; [apply Z.div_le_lower_bound | apply Z.div_lt_upper_bound]; lia. }
    destruct (IH left mid d) as (t1 & d1 & Hrun1 & Hrw1 & Hs1); [lia..|].
    assert (len d1 = len d) as Hlen1 by apply Hrw1.
    destruct (IH (mid + 1) right d1) as (t2 & d2 & Hrun2 & Hrw2 & Hs2); [lia..|].
    assert (len d2 = len d1) as Hlen2 by apply Hrw2.
    destruct (merge_spec d2 left mid right) as (t3 & d3 & Hrun3 & Hrw3 & Hs3); [lia..| |done|].
    { eapply sorted_range_outside; [| |exact Hrw2|exact Hs1]; lia. }
    rewrite (bind_ok _ _ _ _ _ _ Hrun1). rewrite (bind_ok _ _ _ _ _ _ Hrun2). rewrite Hrun3.
    eexists _, d3. split; [done|]. split; [|done].
    eapply rewritten_within_trans; [|exact Hrw3].
    eapply rewritten_within_trans.
    + eapply rewritten_within_weaken; [| |exact Hrw1]; lia.
    + eapply rewritten_within_weaken; [| |exact Hrw2]; lia.
Qed.

(** ** The five strategies sort *)

Lemma merge_sort_sort_spec D :
  ∃ t D',
    MergeSort.wrapped_sort D = (t, D', Ok tt) ∧ D ≡ₚ D' ∧ sorted_range D' 0 (len D').
Proof.
  unfold MergeSort.wrapped_sort.
  rewrite (bind_ok len_data _ D [] D (len D) eq_refl).
  destruct (merge_sort_spec (Z.to_nat (len D)) 0 (len D - 1) D)
    as (t & D' & Hrun & (Hlen & Hperm & _) & Hsorted); [lia..|].
  rewrite Hrun. exists t, D'. split; [done|]. split; [done|].
  rewrite Hlen. by replace (len D) with (len D - 1 + 1) at 1 by lia.
Qed.

Lemma quick_sort_sort_spec D :
  ∃ t D',
    QuickSort.wrapped_sort D = (t, D', Ok tt) ∧ D ≡ₚ D' ∧ sorted_range D' 0 (len D')
    ∧ ∃ c, made_of quick_block c t.
Proof.
  unfold QuickSort.wrapped_sort.
  rewrite (bind_ok len_data _ D [] D (len D) eq_refl).
  destruct (quick_sort_spec (Z.to_nat (len D)) 0 (len D - 1) D)
    as (t & D' & Hrun & Hpw & Hsorted & Htr); [lia..|].
  rewrite Hrun. exists t, D'. split; [done|]. split; [apply (pw_perm _ _ _ _ Hpw)|].
  split; [|done].
  rewrite (pw_len _ _ _ _ Hpw). by replace (len D) with (len D - 1 + 1) at 1 by lia.
Qed.

(** Every strategy runs to completion on every list and leaves it sorted
    in ascending order, with the same elements. *)
Lemma strategy_sorts v D :
  ∃ t D',
    strategy_wrapped_sort v D = (t, D', Ok tt) ∧ D ≡ₚ D' ∧ Sorted Z.le D'.
Proof.
  destruct v; simpl.
  - destruct (bubble_sort_spec D) as (t & D' & Hrun & Hperm & Hs & _).
    exists t, D'. eauto using sorted_range_Sorted.
  - destruct (insertion_sort_spec D) as (t & D' & Hrun & Hperm & Hs).
    exists t, D'. eauto using sorted_range_Sorted.
  - destruct (merge_sort_sort_spec D) as (t & D' & Hrun & Hperm & Hs).
    exists t, D'. eauto using sorted_range_Sorted.
  - destruct (quick_sort_sort_spec D) as (t & D' & Hrun & Hperm & Hs & _).
    exists t, D'. eauto using sorted_range_Sorted.
  - destruct (selection_sort_spec D) as (t & D' & Hrun & Hperm & Hs & _).
    exists t, D'. eauto using sorted_range_Sorted.
Qed.

(** ** The last snapshot is the final content *)

Lemma last_state_app t1 t2 d : last_state (t1 ++ t2) d = last_state t2 (last_state t1 d).
Proof.
  unfold last_state. rewrite snapshots_app.
  destruct (snapshots t2) as [|s ss] using rev_ind.
  - by rewrite app_nil_r.
  - by rewrite app_assoc, !last_snoc.
Qed.

Lemma last_state_readonly t d : snapshots t = [] → last_state t d = d.
Proof. unfold last_state. by intros ->. Qed.

Lemma synced_ret {A} (a : A) : synced (mret a : Gen A).
Proof. by intros d t d' a' [= <- <- _]. Qed.

Lemma synced_bind {A B} (m : Gen A) (f : A → Gen B) :
  synced m → (∀ a, synced (f a)) → synced (m ≫= f).
Proof.
  intros Hm Hf d t d' b Hrun.
  apply bind_inv in Hrun as (t1 & d1 & a & t2 & Hm1 & Hf1 & ->).
  rewrite last_state_app, (Hm _ _ _ _ Hm1). by eapply Hf.
Qed.

Lemma synced_yield_last {A} (m : Gen A) : synced (m ;; yield_data).
Proof.
  intros d t d' b Hrun.
  apply bind_inv in Hrun as (t1 & d1 & a & t2 & Hm1 & Hy & ->).
  injection Hy as <- <-. by rewrite last_state_app.
Qed.


Lemma readonly_synced {A} (m : Gen A) : readonly m → synced m.
Proof.
  intros Hm d t d' a Hrun. destruct (Hm _ _ _ _ Hrun) as [-> Hs].
  by apply last_state_readonly.
Qed.

Lemma readonly_ret {A} (a : A) : readonly (mret a : Gen A).
Proof. by intros d t d' r [= <- <- _]. Qed.

Lemma readonly_bind {A B} (m : Gen A) (f : A → Gen B) :
  readonly m → (∀ a, readonly (f a)) → readonly (m ≫= f).
Proof.
  intros Hm Hf d t d' r. unfold mbind, Gen_bind, gen_bind.
  destruct (m d) as [[t1 d1] [a|e]] eqn:Hm1.
  - destruct (f a d1) as [[t2 d2] r2] eqn:Hf1. intros [= <- <- <-].
    destruct (Hm _ _ _ _ Hm1) as [-> Hs1]. destruct (Hf _ _ _ _ _ Hf1) as [-> Hs2].
    split; [done|]. by rewrite snapshots_app, Hs1, Hs2.
  - intros [= <- <- <-]. by apply (Hm _ _ _ _ Hm1).
Qed.

Lemma readonly_getitem i : readonly (getitem i).
Proof.
  intros d t d' r. unfold getitem.
  by destruct (py_index (len d) i ≫= (d !!.)); intros [= <- <- <-].
Qed.

Lemma readonly_local_getitem l i : readonly (local_getitem l i).
Proof.
  intros d t d' r. unfold local_getitem.
  by destruct (py_index (len l) i ≫= (l !!.)); intros [= <- <- <-].
Qed.

Lemma readonly_len_data : readonly len_data.
Proof. by intros d t d' r [= <- <- <-]. Qed.

Lemma readonly_getslice s e : readonly (getslice s e).
Proof. by intros d t d' r [= <- <- <-]. Qed.

Lemma readonly_for_fold {A S} (xs : list A) (body : A → S → Gen S) s :
  (∀ x s, readonly (body x s)) → readonly (for_fold xs s body).
Proof.
  intros Hb. revert s. induction xs as [|x xs IH]; intros s; simpl.
  - apply readonly_ret.
  - apply readonly_bind; [apply Hb | apply IH].
Qed.

Lemma synced_for_fold {A S} (xs : list A) (body : A → S → Gen S) s :
  (∀ x s, synced (body x s)) → synced (for_fold xs s body).
Proof.
  intros Hb. revert s. induction xs as [|x xs IH]; intros s; simpl.
  - apply synced_ret.
  - apply synced_bind; [apply Hb | apply IH].
Qed.

Lemma synced_for_each {A} (xs : list A) (body : A → Gen unit) :
  (∀ x, synced (body x)) → synced (for_each xs body).
Proof. intros Hb. apply synced_for_fold. intros x _. apply Hb. Qed.

Lemma synced_bubble : synced BubbleSort.wrapped_sort.
Proof.
  apply synced_bind; [apply readonly_synced, readonly_len_data|]. intros n.
  apply synced_for_each. intros i. apply synced_for_each. intros j.
  apply synced_bind; [apply readonly_synced, readonly_getitem|]. intros a.
  apply synced_bind; [apply readonly_synced, readonly_getitem|]. intros b.
  destruct (a >? b); [apply synced_yield_last | apply synced_ret].
Qed.








(** ** Running generators in the world *)

Lemma drain_events t :
  flat_map (λ e, IoGen e :: match e with EvYield s => (λ _, []) s | _ => [] end) t
  = map IoGen t.
Proof. induction t as [|[] t IH]; simpl; by rewrite ?IH. Qed.


Lemma io_draws_app t1 t2 : io_draws (t1 ++ t2) = io_draws t1 ++ io_draws t2.
Proof. apply omap_app. Qed.

Lemma io_snapshots_gen t : io_snapshots (map IoGen t) = snapshots t.
Proof. induction t as [|[] t IH]; simpl; by rewrite ?IH. Qed.


Lemma io_draws_playback t :
  io_draws
    (flat_map (λ e, IoGen e :: match e with EvYield s => [IoDraw s; IoSleep] | _ => [] end) t)
  = snapshots t.
Proof. induction t as [|[] t IH]; simpl; by rewrite ?IH. Qed.

(** Calling a decorated [sort] reads the clock twice, prints the
    difference and returns the generator object of the undecorated
    function, whose body has not started. *)
Lemma strategy_sort_run v l w :
  strategy_sort v l w =
    ([IoTime (clock w (ticks w)); IoTime (clock w (S (ticks w)));
      IoPrint (clock w (S (ticks w)) - clock w (ticks w))],
     World (heap w) (clock w) (S (S (ticks w))),
     Ok (Generator l (strategy_wrapped_sort v))).
Proof. by destruct v. Qed.

Lemma io_bind_ok {A B} (m : IO A) (f : A → IO B) w t1 w1 a :
  m w = (t1, w1, Ok a) →
  (m ≫= f) w = match f a w1 with (t2, w2, r) => (t1 ++ t2, w2, r) end.
Proof. intros Hm. unfold mbind, IO_bind, io_bind. by rewrite Hm. Qed.

(** Obtaining the generator from the context and consuming it. *)
Lemma execute_drain_run v l w D t D' r :
  heap w !! l = Some D →
  strategy_wrapped_sort v D = (t, D', r) →
  (execute {| strategy := v |} l ≫= drain) w =
    ([IoTime (clock w (ticks w)); IoTime (clock w (S (ticks w)));
      IoPrint (clock w (S (ticks w)) - clock w (ticks w))] ++ map IoGen t,
     World (<[l := D']> (heap w)) (clock w) (S (S (ticks w))),
     r).
Proof.
  intros Hl Hrun. unfold execute. simpl strategy.
  rewrite (io_bind_ok _ _ _ _ _ _ (strategy_sort_run v l w)).
  unfold drain, for_in_generator. simpl. by rewrite Hl, Hrun, drain_events.
Qed.

(** The playback of [run_sort]. *)
Lemma run_sort_run v self w D t D' r :
  heap w !! self_data self = Some D →
  strategy_wrapped_sort v D = (t, D', r) →
  run_sort self {| strategy := v |} w =
    ([IoTime (clock w (ticks w)); IoTime (clock w (S (ticks w)));
      IoPrint (clock w (S (ticks w)) - clock w (ticks w))]
     ++ flat_map (λ e, IoGen e :: match e with
                                  | EvYield s => [IoDraw s; IoSleep]
                                  | _ => []
                                  end) t,
     World (<[length (heap w) := D']> (heap w ++ [D])) (clock w) (S (S (ticks w))),
     r).
Proof.
  intros Hl Hrun. unfold run_sort.
  assert (list_copy (self_data self) w
          = ([], World (heap w ++ [D]) (clock w) (ticks w), Ok (length (heap w)))) as Hcopy
    by (unfold list_copy; by rewrite Hl).
  rewrite (io_bind_ok _ _ _ _ _ _ Hcopy).
  unfold execute. simpl strategy.
  rewrite (io_bind_ok _ _ _ _ _ _ (strategy_sort_run v _ _)).
  unfold for_in_generator. simpl.
  rewrite lookup_app_r by done. rewrite Nat.sub_diag. simpl. by rewrite Hrun.
Qed.

(** * The claims *)



(** C5: for every strategy, executing on the empty dataset does not
    fail, neither when the generator is produced nor when it is consumed,
    and the generator performs no event at all: the snapshot sequence is
    empty and the list stays empty. *)
Theorem empty_dataset_no_snapshots v w l :
  heap w !! l = Some [] →
  ∃ t1 w1 g t2 w2,
    execute {| strategy := v |} l w = (t1, w1, Ok g)
    ∧ drain g w1 = (t2, w2, Ok tt)
    ∧ t2 = []
    ∧ io_snapshots (t1 ++ t2) = []
    ∧ heap w2 !! l = Some [].
Proof.
  intros Hl. unfold execute. simpl strategy. rewrite strategy_sort_run.
  eexists _, _, _, [], _. split; [done|].
  assert (strategy_wrapped_sort v [] = ([], [], Ok tt)) as Hrun by (by destruct v).
  unfold drain, for_in_generator. simpl. rewrite Hl, Hrun. simpl.
  split; [done|]. split; [done|]. split; [done|].
  apply list_lookup_insert_eq. by eapply lookup_lt_Some.
Qed.

Lemma empty_dataset_no_snapshots_witness :
  heap (example_world []) !! 0%nat = Some []
  ∧ ∃ t1 w1 g t2 w2,
      execute {| strategy := Merge |} 0%nat (example_world []) = (t1, w1, Ok g)
      ∧ drain g w1 = (t2, w2, Ok tt)
      ∧ t2 = []
      ∧ io_snapshots (t1 ++ t2) = []
      ∧ heap w2 !! 0%nat = Some [].
Proof.
  split; [reflexivity|].
  apply (empty_dataset_no_snapshots Merge (example_world []) 0%nat).
  reflexivity.
Defined.

Lemma made_of_selection_snapshots c t :
  made_of selection_block c t → length (snapshots t) = c.
Proof.
  intros (blocks & -> & <- & Hall).
  induction Hall as [|b blocks (ops & s & -> & Hops) _ IH]; [done|].
  simpl. rewrite !snapshots_app, Hops. simpl. by rewrite IH.
Qed.

(** C7: on every dataset selection sort succeeds and its trace consists
    of one block per outer iteration, each made of operations that yield
    nothing and closed by exactly one [yield], whether or not the swap
    moved anything; so a dataset of [n] elements gives exactly [n]
    snapshots.  On [[5,3,4,1,2]] the five snapshots end with
    [[1,2,3,4,5]]. *)
Theorem selection_sort_one_snapshot_per_iteration D :
  ∃ t D',
    SelectionSort.wrapped_sort D = (t, D', Ok tt)
    ∧ made_of selection_block (length D) t
    ∧ length (snapshots t) = length D
    ∧ snapshots (trace_of (SelectionSort.wrapped_sort [5; 3; 4; 1; 2]))
      = [[1; 3; 4; 5; 2]; [1; 2; 4; 5; 3]; [1; 2; 3; 5; 4]; [1; 2; 3; 4; 5]; [1; 2; 3; 4; 5]].
Proof.
  destruct (selection_sort_spec D) as (t & D' & Hrun & _ & _ & Htr).
  exists t, D'. split; [done|]. split; [done|].
  split; [by apply made_of_selection_snapshots | reflexivity].
Qed.

(** C8: on every dataset of [n] elements bubble sort succeeds after
    exactly [n (n - 1) / 2] inner iterations, the number of the full [n]
    passes, whatever the content; each iteration is either a comparison
    alone, or a comparison followed by the swap of the out-of-order pair
    and one [yield] of the list after the swap.  On [[1,2,3]] there are
    three comparisons, no write, no snapshot, and the list is unchanged. *)
Theorem bubble_sort_snapshot_per_swap D :
  ∃ t D' c,
    BubbleSort.wrapped_sort D = (t, D', Ok tt)
    ∧ bubble_trace c t
    ∧ 2 * Z.of_nat c = len D * (len D - 1)
    ∧ BubbleSort.wrapped_sort [1; 2; 3]
      = ([EvRead 0; EvRead 1; EvRead 1; EvRead 2; EvRead 0; EvRead 1], [1; 2; 3], Ok tt).
Proof.
  destruct (bubble_sort_spec D) as (t & D' & Hrun & _ & _ & c & Htr & Hc).
  exists t, D', c. split; [done|]. split; [done|]. split; [done | reflexivity].
Qed.

Lemma access_no_snapshot ops : Forall is_access ops → snapshots ops = [].
Proof. induction 1 as [|[] ops Hacc _ IH]; simpl; done. Qed.







(** C2 (where the code departs from the claim): the elapsed time is
    printed when the call of the decorated [sort] returns the generator
    object, before the generator has run at all.  On [[2,1]] with bubble
    sort the report precedes every event of the generator, in particular
    its only snapshot. *)
Theorem timing_report_precedes_snapshots :
  io_trace ((execute {| strategy := Bubble |} 0%nat ≫= drain) (example_world [2; 1]))
  = [IoTime 0; IoTime 1; IoPrint 1;
     IoGen (EvRead 0); IoGen (EvRead 1);
     IoGen (EvRead 1); IoGen (EvRead 0); IoGen (EvWrite 0 1); IoGen (EvWrite 1 2);
     IoGen (EvYield [1; 2])].
Proof. reflexivity. Qed.







(** C9: for every strategy, obtaining the generator through the decorated
    [sort] and consuming it yields the same snapshots, in the same order,
    ends with the same outcome and leaves the same lists as doing so with
    the undecorated generator function. *)
Theorem timing_decorator_preserves_snapshots v l w :
  io_snapshots (io_trace ((strategy_sort v l ≫= drain) w))
  = io_snapshots (io_trace ((generator_function (strategy_wrapped_sort v) l ≫= drain) w))
  ∧ io_outcome ((strategy_sort v l ≫= drain) w)
    = io_outcome ((generator_function (strategy_wrapped_sort v) l ≫= drain) w)
  ∧ heap (io_world ((strategy_sort v l ≫= drain) w))
    = heap (io_world ((generator_function (strategy_wrapped_sort v) l ≫= drain) w)).
Proof.
  rewrite (io_bind_ok _ _ _ _ _ _ (strategy_sort_run v l w)).
  rewrite (io_bind_ok (generator_function _ l) _ w [] w _ eq_refl).
  unfold drain, for_in_generator. simpl.
  destruct (heap w !! l) as [D|]; [|done].
  by destruct (strategy_wrapped_sort v D) as [[t D'] r].
Qed.

(** C10: the snapshot sequence of a strategy depends on the content of
    the dataset only: two runs on equal datasets, in any two worlds
    (other lists, references, clocks), yield the same snapshots in the
    same order. *)
Theorem sort_deterministic v w1 w2 l1 l2 D :
  heap w1 !! l1 = Some D → heap w2 !! l2 = Some D →
  io_snapshots (io_trace ((execute {| strategy := v |} l1 ≫= drain) w1))
  = io_snapshots (io_trace ((execute {| strategy := v |} l2 ≫= drain) w2)).
Proof.
  intros H1 H2.
  destruct (strategy_wrapped_sort v D) as [[t D'] r] eqn:Hrun.
  rewrite (execute_drain_run v l1 w1 D t D' r H1 Hrun).
  rewrite (execute_drain_run v l2 w2 D t D' r H2 Hrun).
  unfold io_trace. simpl. by rewrite !io_snapshots_gen.
Qed.

Lemma sort_deterministic_witness :
  (heap (example_world [3; 1; 2]) !! 0%nat = Some [3; 1; 2]
   ∧ heap (World [[9]; [3; 1; 2]] (λ k, 7 * Z.of_nat k) 5) !! 1%nat = Some [3; 1; 2])
  ∧ io_snapshots (io_trace ((execute {| strategy := Merge |} 0%nat ≫= drain)
                              (example_world [3; 1; 2])))
    = io_snapshots (io_trace ((execute {| strategy := Merge |} 1%nat ≫= drain)
                                (World [[9]; [3; 1; 2]] (λ k, 7 * Z.of_nat k) 5))).
Proof.
  split; [split; reflexivity|].
  apply (sort_deterministic Merge (example_world [3; 1; 2])
           (World [[9]; [3; 1; 2]] (λ k, 7 * Z.of_nat k) 5) 0%nat 1%nat [3; 1; 2]);
    reflexivity.
Defined.

(** * Further properties of the code *)

(** ** What every snapshot keeps *)

Lemma readonly_raise {A} e : readonly (raise e : Gen A).
Proof. by intros d t d' r [= <- <- <-]. Qed.

Lemma readonly_log e : is_access e ∨ (∃ lo hi, e = EvPartition lo hi) → readonly (log e).
Proof.
  intros He d t d' r [= <- <- <-]. split; [done|].
  destruct He as [He|(lo & hi & ->)]; [by destruct e | done].
Qed.

Ltac readonly_tac :=
  repeat first
    [ apply readonly_ret | apply readonly_raise | apply readonly_getitem
    | apply readonly_local_getitem | apply readonly_len_data | apply readonly_getslice
    | apply readonly_log; right; by eexists _, _
    | apply readonly_for_fold; intros
    | apply readonly_bind; [|intros]
    | match goal with
      | |- readonly (if ?c then _ else _) => destruct c
      | |- readonly (match ?n with O => _ | S _ => _ end) => destruct n
      end ].

Section preserved_relation.
Context (R : list Z → list Z → Prop) `{!Reflexive R, !Transitive R}.

Lemma preserves_readonly {A} (m : Gen A) : readonly m → preserves R m.
Proof.
  intros Hm d t d' r Hrun. destruct (Hm _ _ _ _ Hrun) as [-> ->]. by split.
Qed.

Lemma preserves_yield : preserves R yield_data.
Proof. intros d t d' r [= <- <- <-]. split; [done|]. by repeat constructor. Qed.

Lemma preserves_bind {A B} (m : Gen A) (f : A → Gen B) :
  preserves R m → (∀ a, preserves R (f a)) → preserves R (m ≫= f).
Proof.
  intros Hm Hf d t d' r. unfold mbind, Gen_bind, gen_bind.
  destruct (m d) as [[t1 d1] [a|e]] eqn:Hm1.
  - destruct (f a d1) as [[t2 d2] r2] eqn:Hf1. intros [= <- <- <-].
    destruct (Hm _ _ _ _ Hm1) as [HR1 Hs1]. destruct (Hf _ _ _ _ _ Hf1) as [HR2 Hs2].
    split; [by etrans|]. rewrite snapshots_app. apply Forall_app. split; [done|].
    eapply Forall_impl; [exact Hs2|]. intros s Hs. by etrans.
  - intros [= <- <- <-]. by apply (Hm _ _ _ _ Hm1).
Qed.

Lemma preserves_for_fold {A S} (xs : list A) (body : A → S → Gen S) s :
  (∀ x s, preserves R (body x s)) → preserves R (for_fold xs s body).
Proof.
  intros Hb. revert s. induction xs as [|x xs IH]; intros s; simpl.
  - apply preserves_readonly, readonly_ret.
  - apply preserves_bind; [apply Hb | apply IH].
Qed.

Lemma preserves_for_each {A} (xs : list A) (body : A → Gen unit) :
  (∀ x, preserves R (body x)) → preserves R (for_each xs body).
Proof. intros Hb. apply preserves_for_fold. intros x _. apply Hb. Qed.

Ltac preserves_tac :=
  repeat first
    [ match goal with
      | H : ∀ i j, preserves _ (swap i j) |- preserves _ (swap _ _) => apply H
      | H : ∀ i v, preserves _ (setitem i v) |- preserves _ (setitem _ _) => apply H
      | |- preserves _ (if ?c then _ else _) => destruct c
      | |- preserves _ (let '(_, _) := ?p in _) => destruct p
      end
    | apply preserves_yield
    | apply preserves_readonly; solve [readonly_tac]
    | apply preserves_for_each; intros
    | apply preserves_for_fold; intros
    | apply preserves_bind; [|intros] ].

(** The strategies that only swap. *)
Section swapping.
Hypothesis Hswap : ∀ i j, preserves R (swap i j).

Lemma preserves_bubble : preserves R BubbleSort.wrapped_sort.
Proof. unfold BubbleSort.wrapped_sort. preserves_tac. Qed.

Lemma preserves_selection : preserves R SelectionSort.wrapped_sort.
Proof. unfold SelectionSort.wrapped_sort. preserves_tac. Qed.

Lemma preserves_partition low high : preserves R (QuickSort._partition low high).
Proof. unfold QuickSort._partition. preserves_tac. Qed.

Lemma preserves_quick_sort fuel : ∀ low high, preserves R (QuickSort._quick_sort fuel low high).
Proof.
  induction fuel as [|fuel IH]; intros low high; simpl.
  - preserves_tac.
  - destruct (low <? high); [|preserves_tac].
    apply preserves_bind; [apply preserves_partition|]. intros p.
    apply preserves_bind; [apply preserves_yield|]. intros _.
    apply preserves_bind; [apply IH|]. intros _. apply IH.
Qed.

Lemma preserves_quick : preserves R QuickSort.wrapped_sort.
Proof.
  apply preserves_bind; [preserves_tac|]. intros n. apply preserves_quick_sort.
Qed.
End swapping.

(** All strategies, from single assignments. *)
Section assigning.
Hypothesis Hset : ∀ i v, preserves R (setitem i v).

Lemma preserves_swap_of_setitem i j : preserves R (swap i j).
Proof. unfold swap. preserves_tac. Qed.

Lemma preserves_shift_loop fuel : ∀ key j, preserves R (InsertionSort.shift_loop fuel key j).
Proof.
  induction fuel as [|fuel IH]; intros key j; simpl.
  - preserves_tac.
  - destruct (j >=? 0); [|preserves_tac].
    apply preserves_bind; [preserves_tac|]. intros x.
    destruct (key <? x); [|preserves_tac].
    apply preserves_bind; [preserves_tac|]. intros y.
    apply preserves_bind; [preserves_tac|]. intros _.
    apply preserves_bind; [preserves_tac|]. intros _. apply IH.
Qed.

Lemma preserves_insertion : preserves R InsertionSort.wrapped_sort.
Proof.
  apply preserves_bind; [preserves_tac|]. intros n.
  apply preserves_for_each. intros i.
  apply preserves_bind; [preserves_tac|]. intros key.
  apply preserves_bind; [apply preserves_shift_loop|]. intros j. preserves_tac.
Qed.

Lemma preserves_merge left mid right : preserves R (MergeSort._merge left mid right).
Proof. unfold MergeSort._merge. preserves_tac. Qed.

Lemma preserves_merge_sort fuel : ∀ left right, preserves R (MergeSort._merge_sort fuel left right).
Proof.
  induction fuel as [|fuel IH]; intros left right; simpl.
  - preserves_tac.
  - destruct (left <? right); [|preserves_tac].
    apply preserves_bind; [apply IH|]. intros _.
    apply preserves_bind; [apply IH|]. intros _. apply preserves_merge.
Qed.

Lemma preserves_strategy v : preserves R (strategy_wrapped_sort v).
Proof.
  destruct v; simpl.
  - apply preserves_bubble, preserves_swap_of_setitem.
  - apply preserves_insertion.
  - apply preserves_bind; [preserves_tac|]. intros n. apply preserves_merge_sort.
  - apply preserves_quick, preserves_swap_of_setitem.
  - apply preserves_selection, preserves_swap_of_setitem.
Qed.
End assigning.
End preserved_relation.

#[local] Instance same_length_refl : Reflexive same_length.
Proof. by intros d. Qed.

#[local] Instance same_length_trans : Transitive same_length.
Proof. unfold same_length. intros d1 d2 d3 H1 H2. congruence. Qed.

Lemma setitem_same_length i v : preserves same_length (setitem i v).
Proof.
  intros d t d' r. unfold setitem.
  destruct (py_index (len d) i); intros [= <- <- <-]; (split; [|done]).
  - apply length_insert.
  - done.
Qed.

(** A swap at any two indices, negative ones included, rearranges the
    list or, when an index is out of range, leaves it as it is. *)
Lemma swap_permutation i j : preserves (≡ₚ) (swap i j).
Proof.
  intros d t d' r. unfold swap, getitem, setitem, mbind, Gen_bind, gen_bind.
  destruct (py_index (len d) j) as [kj|] eqn:Hj; simpl;
    [destruct (d !! kj) as [a|] eqn:Ha; simpl|].
  2, 3: by intros [= <- <- <-].
  destruct (py_index (len d) i) as [ki|] eqn:Hi; simpl;
    [destruct (d !! ki) as [b|] eqn:Hb; simpl|].
  2, 3: by intros [= <- <- <-].
  rewrite Hi.
  replace (len (<[ki:=a]> d)) with (len d) by (unfold len; by rewrite length_insert).
  rewrite Hj. intros [= <- <- <-]. split; [|done].
  symmetry. by apply insert_swap_perm.
Qed.

(** X1: for every strategy and every dataset, each snapshot of the
    sequence, and the list the run ends with, has exactly as many elements
    as the dataset: sorting never drops or adds an element. *)
Theorem snapshots_keep_length v D :
  Forall (λ s, length s = length D) (snapshots (trace_of (strategy_wrapped_sort v D)))
  ∧ ∀ t D' r, strategy_wrapped_sort v D = (t, D', r) → length D' = length D.
Proof.
  pose proof (preserves_strategy same_length setitem_same_length v) as Hp.
  destruct (strategy_wrapped_sort v D) as [[t D'] r] eqn:Hrun.
  destruct (Hp D t D' r Hrun) as [Hlen Hall]. split; [done|].
  by intros ? ? ? [= <- <- <-].
Qed.

(** X2: bubble, quick and selection sort only ever swap, so every one of
    their snapshots is a rearrangement of the dataset.  Insertion and
    merge sort overwrite elements one at a time, and their snapshots can
    hold a value twice while another is missing: on [[3,1,2]] insertion
    sort yields [[3,3,2]] and merge sort yields [[1,1,2]]. *)
Theorem swapping_sorts_yield_permutations D :
  Forall (λ s, D ≡ₚ s) (snapshots (trace_of (BubbleSort.wrapped_sort D)))
  ∧ Forall (λ s, D ≡ₚ s) (snapshots (trace_of (QuickSort.wrapped_sort D)))
  ∧ Forall (λ s, D ≡ₚ s) (snapshots (trace_of (SelectionSort.wrapped_sort D)))
  ∧ [3; 3; 2] ∈ snapshots (trace_of (InsertionSort.wrapped_sort [3; 1; 2]))
  ∧ [1; 1; 2] ∈ snapshots (trace_of (MergeSort.wrapped_sort [3; 1; 2])).
Proof.
  assert (∀ m : Gen unit, preserves (≡ₚ) m →
            Forall (λ s, D ≡ₚ s) (snapshots (trace_of (m D)))) as Hall.
  { intros m Hm. destruct (m D) as [[t D'] r] eqn:Hrun. by apply (Hm D t D' r). }
  split; [apply Hall, preserves_bubble; try apply _; apply swap_permutation|].
  split; [apply Hall, preserves_quick; try apply _; apply swap_permutation|].
  split; [apply Hall, preserves_selection; try apply _; apply swap_permutation|].
  split; apply list_elem_of_lookup; by exists 0%nat.
Qed.

(** ** No value is invented *)

Section confinement.
Context (P : Z → Prop).

Local Notation "'any'" := (λ _, True).

Lemma confined_weaken {A} (Q Q' : A → Prop) (m : Gen A) :
  (∀ a, Q a → Q' a) → confined P Q m → confined P Q' m.
Proof.
  intros HQ Hm d t d' r HP Hrun. destruct (Hm d t d' r HP Hrun) as (H1 & H2 & H3).
  split; [done|]. split; [done|]. intros a ->. by apply HQ, H3.
Qed.

Lemma confined_readonly {A} (m : Gen A) : readonly m → confined P any m.
Proof.
  intros Hm d t d' r HP Hrun. destruct (Hm _ _ _ _ Hrun) as [-> ->]. by repeat split.
Qed.

Lemma confined_ret {A} (Q : A → Prop) (a : A) : Q a → confined P Q (mret a : Gen A).
Proof.
  intros HQ d t d' r HP [= <- <- <-]. split; [done|]. split; [done|]. by intros ? [= <-].
Qed.

Lemma confined_bind {A B} (Q : A → Prop) (Q' : B → Prop) (m : Gen A) (f : A → Gen B) :
  confined P Q m → (∀ a, Q a → confined P Q' (f a)) → confined P Q' (m ≫= f).
Proof.
  intros Hm Hf d t d' r HP. unfold mbind, Gen_bind, gen_bind.
  destruct (m d) as [[t1 d1] [a|e]] eqn:Hm1.
  - destruct (f a d1) as [[t2 d2] r2] eqn:Hf1. intros [= <- <- <-].
    destruct (Hm _ _ _ _ HP Hm1) as (HP1 & Hs1 & HQ).
    destruct (Hf a (HQ a eq_refl) _ _ _ _ HP1 Hf1) as (HP2 & Hs2 & HQ').
    split; [done|]. split; [|done]. rewrite snapshots_app. by apply Forall_app.
  - intros [= <- <- <-]. destruct (Hm _ _ _ _ HP Hm1) as (HP1 & Hs1 & _).
    split; [done|]. split; [done|]. by intros.
Qed.

Lemma confined_getitem i : confined P P (getitem i).
Proof.
  intros d t d' r HP. unfold getitem.
  destruct (py_index (len d) i) as [k|]; simpl; [destruct (d !! k) as [x|] eqn:Hk|];
    intros [= <- <- <-]; (split; [done|]); (split; [done|]); intros a [= <-].
  exact (Forall_lookup_1 _ _ _ _ HP Hk).
Qed.

Lemma confined_local_getitem l i : Forall P l → confined P P (local_getitem l i).
Proof.
  intros Hl d t d' r HP. unfold local_getitem.
  destruct (py_index (len l) i) as [k|]; simpl; [destruct (l !! k) as [x|] eqn:Hk|];
    intros [= <- <- <-]; (split; [done|]); (split; [done|]); intros a [= <-].
  exact (Forall_lookup_1 _ _ _ _ Hl Hk).
Qed.

Lemma confined_getslice s e : confined P (Forall P) (getslice s e).
Proof.
  intros d t d' r HP [= <- <- <-]. split; [done|]. split; [done|]. intros l [= <-].
  unfold py_slice. by apply Forall_take, Forall_drop.
Qed.

Lemma confined_setitem i v : P v → confined P any (setitem i v).
Proof.
  intros Hv d t d' r HP. unfold setitem.
  destruct (py_index (len d) i) as [k|]; intros [= <- <- <-]; (split; [|done]).
  - by apply Forall_insert.
  - done.
Qed.

Lemma confined_yield : confined P any yield_data.
Proof. intros d t d' r HP [= <- <- <-]. split; [done|]. split; [|done]. by repeat constructor. Qed.

Lemma confined_swap i j : confined P any (swap i j).
Proof.
  apply confined_bind with P; [apply confined_getitem|]. intros a Ha.
  apply confined_bind with P; [apply confined_getitem|]. intros b Hb.
  apply confined_bind with any; [by apply confined_setitem|]. intros _ _.
  by apply confined_setitem.
Qed.

Lemma confined_for_fold {A S} (QS : S → Prop) (xs : list A) (body : A → S → Gen S) s :
  (∀ x s, QS s → confined P QS (body x s)) → QS s → confined P QS (for_fold xs s body).
Proof.
  intros Hb. revert s. induction xs as [|x xs IH]; intros s Hs; simpl.
  - by apply confined_ret.
  - apply confined_bind with QS; [by apply Hb | apply IH].
Qed.

Lemma confined_for_each {A} (xs : list A) (body : A → Gen unit) :
  (∀ x, confined P any (body x)) → confined P any (for_each xs body).
Proof. intros Hb. apply (confined_for_fold any); [|done]. intros x _ _. apply Hb. Qed.

Lemma confined_bubble : confined P any BubbleSort.wrapped_sort.
Proof.
  apply confined_bind with any; [apply confined_readonly, readonly_len_data|]. intros n _.
  apply confined_for_each. intros i. apply confined_for_each. intros j.
  apply confined_bind with P; [apply confined_getitem|]. intros a _.
  apply confined_bind with P; [apply confined_getitem|]. intros b _.
  destruct (a >? b); [|by apply confined_ret].
  apply confined_bind with any; [apply confined_swap|]. intros _ _. apply confined_yield.
Qed.

Lemma confined_shift_loop fuel : ∀ key j, confined P any (InsertionSort.shift_loop fuel key j).
Proof.
  induction fuel as [|fuel IH]; intros key j; simpl;
    (destruct (j >=? 0); [|by apply confined_ret]);
    (apply confined_bind with P; [apply confined_getitem|]); intros x _;
    (destruct (key <? x); [|by apply confined_ret]).
  - apply confined_readonly, readonly_raise.
  - apply confined_bind with P; [apply confined_getitem|]. intros y Hy.
    apply confined_bind with any; [by apply confined_setitem|]. intros _ _.
    apply confined_bind with any; [apply confined_yield|]. intros _ _. apply IH.
Qed.

Lemma confined_insertion : confined P any InsertionSort.wrapped_sort.
Proof.
  apply confined_bind with any; [apply confined_readonly, readonly_len_data|]. intros n _.
  apply confined_for_each. intros i.
  apply confined_bind with P; [apply confined_getitem|]. intros key Hkey.
  apply confined_bind with any; [apply confined_shift_loop|]. intros j _.
  apply confined_bind with any; [by apply confined_setitem|]. intros _ _.
  apply confined_yield.
Qed.

Lemma confined_merge left mid right : confined P any (MergeSort._merge left mid right).
Proof.
  apply confined_bind with (Forall P); [apply confined_getslice|]. intros L HL.
  apply confined_bind with (Forall P); [apply confined_getslice|]. intros R HR.
  apply confined_bind with any; [|intros; by apply confined_ret].
  apply (confined_for_fold any); [|done]. intros i [l r] _.
  apply confined_bind with any.
  { apply confined_readonly. readonly_tac. }
  intros take_left _.
  apply confined_bind with any.
  - destruct take_left.
    + apply confined_bind with P; [by apply confined_local_getitem|]. intros a Ha.
      apply confined_bind with any; [by apply confined_setitem|]. intros _ _.
      by apply confined_ret.
    + apply confined_bind with P; [by apply confined_local_getitem|]. intros b Hb.
      apply confined_bind with any; [by apply confined_setitem|]. intros _ _.
      by apply confined_ret.
  - intros lr _. apply confined_bind with any; [apply confined_yield|]. intros _ _.
    by apply confined_ret.
Qed.

Lemma confined_merge_sort fuel : ∀ left right,
  confined P any (MergeSort._merge_sort fuel left right).
Proof.
  induction fuel as [|fuel IH]; intros left right; simpl;
    (destruct (left <? right); [|by apply confined_ret]).
  - apply confined_readonly, readonly_raise.
  - apply confined_bind with any; [apply IH|]. intros _ _.
    apply confined_bind with any; [apply IH|]. intros _ _. apply confined_merge.
Qed.

Lemma confined_partition low high : confined P any (QuickSort._partition low high).
Proof.
  apply confined_bind with any; [apply confined_readonly; readonly_tac|]. intros _ _.
  apply confined_bind with P; [apply confined_getitem|]. intros pivot _.
  apply confined_bind with any.
  - apply (confined_for_fold any); [|done]. intros j i _.
    apply confined_bind with P; [apply confined_getitem|]. intros x _.
    destruct (x <=? pivot); [|by apply confined_ret].
    apply confined_bind with any; [apply confined_swap|]. intros _ _. by apply confined_ret.
  - intros i _. apply confined_bind with any; [apply confined_swap|]. intros _ _.
    by apply confined_ret.
Qed.

Lemma confined_quick_sort fuel : ∀ low high,
  confined P any (QuickSort._quick_sort fuel low high).
Proof.
  induction fuel as [|fuel IH]; intros low high; simpl;
    (destruct (low <? high); [|by apply confined_ret]).
  - apply confined_readonly, readonly_raise.
  - apply confined_bind with any; [apply confined_partition|]. intros p _.
    apply confined_bind with any; [apply confined_yield|]. intros _ _.
    apply confined_bind with any; [apply IH|]. intros _ _. apply IH.
Qed.

Lemma confined_selection : confined P any SelectionSort.wrapped_sort.
Proof.
  apply confined_bind with any; [apply confined_readonly, readonly_len_data|]. intros n _.
  apply confined_for_each. intros i.
  apply confined_bind with any; [apply confined_readonly; readonly_tac|]. intros m _.
  apply confined_bind with any; [apply confined_swap|]. intros _ _. apply confined_yield.
Qed.

Lemma confined_strategy v : confined P any (strategy_wrapped_sort v).
Proof.
  destruct v; simpl.
  - apply confined_bubble.
  - apply confined_insertion.
  - apply confined_bind with any; [apply confined_readonly, readonly_len_data|]. intros n _.
    apply confined_merge_sort.
  - apply confined_bind with any; [apply confined_readonly, readonly_len_data|]. intros n _.
    apply confined_quick_sort.
  - apply confined_selection.
Qed.
End confinement.

(** X3: the strategies never invent a value: whatever property all the
    elements of the dataset have (lying between 10 and 100, being
    positive, occurring in the dataset), all the elements of every
    snapshot have it too, and so have those of the final list. *)
Theorem snapshots_hold_dataset_values (P : Z → Prop) v D :
  Forall P D →
  Forall (Forall P) (snapshots (trace_of (strategy_wrapped_sort v D)))
  ∧ ∀ t D' r, strategy_wrapped_sort v D = (t, D', r) → Forall P D'.
Proof.
  intros HP. pose proof (confined_strategy P v) as Hc.
  destruct (strategy_wrapped_sort v D) as [[t D'] r] eqn:Hrun.
  destruct (Hc D t D' r HP Hrun) as (HP' & Hall & _). split; [done|].
  by intros ? ? ? [= <- <- <-].
Qed.

Lemma snapshots_hold_dataset_values_witness :
  Forall (λ x, 10 ≤ x ≤ 100) [57; 10; 100; 33]
  ∧ Forall (Forall (λ x, 10 ≤ x ≤ 100))
      (snapshots (trace_of (strategy_wrapped_sort Merge [57; 10; 100; 33])))
    ∧ ∀ t D' r, strategy_wrapped_sort Merge [57; 10; 100; 33] = (t, D', r) →
                Forall (λ x, 10 ≤ x ≤ 100) D'.
Proof.
  assert (Forall (λ x, 10 ≤ x ≤ 100) [57; 10; 100; 33]) as H
    by (repeat constructor; lia).
  split; [exact H|].
  apply (snapshots_hold_dataset_values (λ x, 10 ≤ x ≤ 100) Merge [57; 10; 100; 33] H).
Defined.

(** ** Inversions and the number of snapshots *)

Lemma inversions_adjacent (l : list Z) k a b :
  l !! k = Some a → l !! S k = Some b → b < a →
  S (inversions (<[S k := a]> (<[k := b]> l))) = inversions l.
Proof.
  revert k. induction l as [|x l IH]; intros [|k] Ha Hb Hlt; simplify_eq/=.
  - destruct l as [|y l]; simplify_eq/=.
    rewrite !filter_cons. repeat case_decide; simpl; lia.
  - pose proof (IH k Ha Hb Hlt) as IHk.
    assert (length (filter (λ y, y < x) (<[S k := a]> (<[k := b]> l)))
            = length (filter (λ y, y < x) l)) as Hf.
    { apply Permutation_length, filter_Permutation. by apply insert_swap_perm. }
    lia.
Qed.

Lemma inversions_swap_next d j :
  0 ≤ j → j + 1 < len d → get d (j + 1) < get d j →
  S (inversions (upd (upd d j (get d (j + 1))) (j + 1) (get d j))) = inversions d.
Proof.
  intros Hj Hj1 Hlt. unfold upd.
  replace (Z.to_nat (j + 1)) with (S (Z.to_nat j)) by lia.
  apply inversions_adjacent; [by apply get_lookup; lia | | done].
  replace (S (Z.to_nat j)) with (Z.to_nat (j + 1)) by lia. apply get_lookup. lia.
Qed.

Lemma filter_lt_none x (l : list Z) : Forall (Z.le x) l → filter (λ y, y < x) l = [].
Proof.
  induction 1 as [|y l Hy _ IH]; [done|].
  rewrite filter_cons. case_decide; [lia | done].
Qed.

Lemma inversions_sorted l : Sorted Z.le l → inversions l = 0%nat.
Proof.
  intros Hs. apply (Sorted_StronglySorted _) in Hs.
  induction Hs as [|x l _ IH Hall]; [done|]. simpl.
  by rewrite IH, filter_lt_none.
Qed.

Lemma Sorted_sorted_range d : Sorted Z.le d → sorted_range d 0 (len d).
Proof.
  intros Hs. apply (Sorted_StronglySorted _) in Hs.
  induction Hs as [|x d _ IH Hall]; intros a b Ha Hab Hb.
  { unfold len in Hb. simpl in Hb. lia. }
  assert (Hshift : ∀ k, 0 ≤ k → get (x :: d) (k + 1) = get d k).
  { intros k Hk. unfold get. replace (Z.to_nat (k + 1)) with (S (Z.to_nat k)) by lia. done. }
  assert (len (x :: d) = len d + 1) as Hlen by (unfold len; simpl length; lia).
  destruct (decide (a = 0)) as [->|Ha0], (decide (b = 0)) as [->|Hb0]; try lia.
  - replace b with (b - 1 + 1) by lia. rewrite Hshift by lia.
    change (get (x :: d) 0) with x.
    apply (Forall_lookup_1 _ _ (Z.to_nat (b - 1)) _ Hall). apply get_lookup. lia.
  - replace a with (a - 1 + 1) by lia. replace b with (b - 1 + 1) by lia.
    rewrite !Hshift by lia. apply IH; lia.
Qed.

(** One pass of bubble sort: every snapshot pays for one inversion. *)
Lemma bubble_pass_inversions d n i :
  len d = n → 0 ≤ i < n →
  ∃ t d',
    for_each (range 0 (n - i - 1)) (λ j,
      a ← getitem j; b ← getitem (j + 1);
      if a >? b then swap j (j + 1);; yield_data else mret tt) d = (t, d', Ok tt)
    ∧ len d' = n
    ∧ (length (snapshots t) + inversions d')%nat = inversions d.
Proof.
  intros Hn Hi.
  for_each_invariant
    (λ (j : Z) t d', len d' = n
                     ∧ (length (snapshots t) + inversions d')%nat = inversions d)
    from (@nil event) at d
    as (t & d' & Hrun & Hlen & Hinv); [| | | by exists t, d'].
  - lia.
  - done.
  - intros j t d1 Hj (Hlen & Hinv).
    rewrite bubble_iteration_run by lia.
    destruct (Z.gtb_spec (get d1 j) (get d1 (j + 1))) as [Hgt|Hle].
    + eexists _, _. split; [done|]. split; [len_lia|].
      rewrite snapshots_app, length_app. simpl.
      pose proof (inversions_swap_next d1 j ltac:(lia) ltac:(lia) Hgt). lia.
    + eexists _, _. split; [done|]. split; [done|].
      rewrite snapshots_app, length_app. simpl. lia.
Qed.

Lemma bubble_sort_inversions D :
  ∃ t D',
    BubbleSort.wrapped_sort D = (t, D', Ok tt)
    ∧ (length (snapshots t) + inversions D')%nat = inversions D.
Proof.
  unfold BubbleSort.wrapped_sort.
  rewrite (bind_ok len_data _ D [] D (len D) eq_refl).
  set (n := len D).
  for_each_invariant
    (λ (i : Z) t d, len d = n
                    ∧ (length (snapshots t) + inversions d)%nat = inversions D)
    from (@nil event) at D
    as (t & D' & Hrun & Hlen & Hinv); [| | | exists t, D'].
  - apply len_nonneg.
  - done.
  - intros i t d Hi (Hlen & Hinv).
    destruct (bubble_pass_inversions d n i Hlen Hi) as (t' & d' & Hrun & Hlen' & Hinv').
    exists t', d'. split; [exact Hrun|]. split; [done|].
    rewrite snapshots_app, length_app. lia.
  - rewrite Hrun. by split.
Qed.

(** X4: bubble sort yields exactly as many snapshots as the dataset has
    inversions (pairs of positions in descending order), each swap
    removing one; so it yields nothing exactly when the dataset is
    already in ascending order. *)
Theorem bubble_sort_snapshots_are_inversions D :
  length (snapshots (trace_of (BubbleSort.wrapped_sort D))) = inversions D
  ∧ (snapshots (trace_of (BubbleSort.wrapped_sort D)) = [] ↔ Sorted Z.le D).
Proof.
  destruct (bubble_sort_inversions D) as (t & D' & Hrun & Hinv).
  destruct (bubble_sort_spec D) as (t' & D'' & Hrun' & _ & Hsorted & _).
  rewrite Hrun in Hrun'. injection Hrun' as <- <-.
  apply sorted_range_Sorted in Hsorted.
  pose proof (synced_bubble D t D' tt Hrun) as Hsync.
  rewrite Hrun. unfold trace_of. simpl.
  rewrite (inversions_sorted D' Hsorted) in Hinv.
  split; [lia|]. split.
  - intros Hnil. unfold last_state in Hsync. rewrite Hnil in Hsync. simpl in Hsync.
    by subst.
  - intros HD. apply inversions_sorted in HD.
    destruct (snapshots t); [done | simpl in Hinv; lia].
Qed.

(** The shifting loop, counted: every shift removes one inversion of the
    list that has [key] in the hole. *)
Lemma shift_loop_inversions n i key fuel : ∀ j d,
  len d = n → 0 ≤ i < n → -1 ≤ j < i → (Z.to_nat (j + 1) ≤ fuel)%nat →
  ∃ t d' j',
    InsertionSort.shift_loop fuel key j d = (t, d', Ok j')
    ∧ len d' = n ∧ -1 ≤ j' ≤ j
    ∧ (length (snapshots t) + inversions (upd d' (j' + 1) key))%nat
      = inversions (upd d (j + 1) key).
Proof.
  induction fuel as [|fuel IH]; intros j d Hn Hi Hj Hfuel.
  - assert (j = -1) as -> by lia. simpl. exists [], d, (-1). repeat split; done || lia.
  - simpl. destruct (Z.geb_spec j 0) as [Hj0|Hj0]; cycle 1.
    { exists [], d, j. repeat split; done || lia. }
    rewrite (bind_ok _ _ _ _ _ _ (getitem_run d j ltac:(lia))).
    destruct (Z.ltb_spec key (get d j)) as [Hlt|Hge]; cycle 1.
    { exists [EvRead j], d, j. rewrite ret_run. simpl. repeat split; done || lia. }
    rewrite (bind_ok _ _ _ _ _ _ (getitem_run d j ltac:(lia))).
    rewrite (bind_ok _ _ _ _ _ _ (setitem_run d (j + 1) (get d j) ltac:(lia))).
    set (d1 := upd d (j + 1) (get d j)).
    rewrite (bind_ok yield_data _ d1 [EvYield d1] d1 tt eq_refl).
    destruct (IH (j - 1) d1) as (t & d' & j' & Hrun & Hn' & Hj' & Hinv);
      [unfold d1; len_lia | done | lia | lia |].
    rewrite Hrun. eexists _, d', j'. split; [done|]. split; [done|]. split; [lia|].
    replace (j - 1 + 1) with j in Hinv by lia.
    set (v := upd d (j + 1) key).
    assert (upd d1 j key = upd (upd v j (get v (j + 1))) (j + 1) (get v j)) as Hv.
    { unfold v, d1. apply list_ext_get; [len_lia|]. intros k Hk.
      rewrite !len_upd in Hk. get_upd_cases. }
    assert (get v (j + 1) < get v j) as Hlt'.
    { unfold v. rewrite get_upd_eq by lia. by rewrite get_upd_ne by lia. }
    pose proof (inversions_swap_next v j ltac:(lia) ltac:(unfold v; len_lia) Hlt') as Hsw.
    rewrite <- Hv in Hsw. simpl. simpl in Hinv. lia.
Qed.

Lemma insertion_sort_inversions D :
  ∃ t D',
    InsertionSort.wrapped_sort D = (t, D', Ok tt)
    ∧ (length (snapshots t) + inversions D')%nat
      = (inversions D + (length D - 1))%nat.
Proof.
  unfold InsertionSort.wrapped_sort.
  rewrite (bind_ok len_data _ D [] D (len D) eq_refl).
  set (n := len D).
  destruct (decide (n = 0)) as [Hn0|Hn0].
  { unfold for_each. rewrite for_range_empty by lia. exists [], D.
    split; [done|]. unfold n, len in Hn0. simpl. lia. }
  assert (0 < n) as Hnpos by (pose proof (len_nonneg D); fold n in H; lia).
  for_each_invariant
    (λ i (t : list event) d,
       len d = n
       ∧ (length (snapshots t) + inversions d)%nat = (inversions D + Z.to_nat (i - 1))%nat)
    from (@nil event) at D
    as (t & D' & Hrun & Hlen & Hinv); [| | | exists t, D'].
  - lia.
  - split; [done|]. simpl. lia.
  - intros i t d Hi (Hlen & Hinv).
    rewrite (bind_ok _ _ _ _ _ _ (getitem_run d i ltac:(lia))).
    destruct (shift_loop_inversions n i (get d i) (Z.to_nat i) (i - 1) d)
      as (t1 & d1 & j & Hloop & Hlen1 & Hj & Hinv1); [done | lia | lia | lia |].
    replace (i - 1 + 1) with i in Hinv1 by lia. rewrite upd_same in Hinv1 by lia.
    rewrite (bind_ok _ _ _ _ _ _ Hloop).
    rewrite (bind_ok _ _ _ _ _ _ (setitem_run d1 (j + 1) (get d i) ltac:(lia))).
    unfold yield_data. eexists _, _. split; [done|]. split; [len_lia|].
    rewrite !snapshots_app, !length_app. simpl. lia.
  - rewrite Hrun. split; [done|]. simpl in Hinv. unfold n, len in Hinv. lia.
Qed.

(** X5: insertion sort yields one snapshot per shift and one per
    placement; a shift removes exactly one inversion, so on a dataset of
    [n >= 1] elements the number of snapshots is the number of inversions
    of the dataset plus [n - 1] (and none for the empty dataset). *)
Theorem insertion_sort_snapshot_count D :
  length (snapshots (trace_of (InsertionSort.wrapped_sort D)))
  = (inversions D + (length D - 1))%nat.
Proof.
  destruct (insertion_sort_inversions D) as (t & D' & Hrun & Hinv).
  destruct (insertion_sort_spec D) as (t' & D'' & Hrun' & _ & Hsorted).
  rewrite Hrun in Hrun'. injection Hrun' as <- <-.
  apply sorted_range_Sorted, inversions_sorted in Hsorted.
  rewrite Hrun. unfold trace_of. simpl. lia.
Qed.

(** X6: on a dataset already in ascending order insertion sort shifts
    nothing: it leaves the list as it is and yields it unchanged once per
    element from the second on. *)
Theorem insertion_sort_on_sorted D :
  Sorted Z.le D →
  ∃ t,
    InsertionSort.wrapped_sort D = (t, D, Ok tt)
    ∧ snapshots t = replicate (length D - 1) D.
Proof.
  intros Hs. apply Sorted_sorted_range in Hs.
  unfold InsertionSort.wrapped_sort.
  rewrite (bind_ok len_data _ D [] D (len D) eq_refl).
  set (n := len D).
  destruct (decide (n = 0)) as [Hn0|Hn0].
  { unfold for_each. rewrite for_range_empty by lia. exists [].
    split; [done|]. unfold n, len in Hn0. by replace (length D - 1)%nat with 0%nat by lia. }
  assert (0 < n) as Hnpos by (pose proof (len_nonneg D); fold n in H; lia).
  for_each_invariant
    (λ i (t : list event) d, d = D ∧ snapshots t = replicate (Z.to_nat (i - 1)) D)
    from (@nil event) at D
    as (t & D' & Hrun & -> & Hsn); [| | | exists t].
  - lia.
  - done.
  - intros i t d Hi (-> & Hsn).
    rewrite (bind_ok _ _ _ _ _ _ (getitem_run D i ltac:(lia))).
    assert (InsertionSort.shift_loop (Z.to_nat i) (get D i) (i - 1) D
            = ([EvRead (i - 1)], D, Ok (i - 1))) as Hloop.
    { assert (get D (i - 1) ≤ get D i) as Hle by (apply Hs; lia).
      destruct (Z.to_nat i); simpl;
        (destruct (Z.geb_spec (i - 1) 0); [|lia]);
        rewrite (bind_ok _ _ _ _ _ _ (getitem_run D (i - 1) ltac:(lia)));
        (destruct (Z.ltb_spec (get D i) (get D (i - 1))); [lia | done]). }
    rewrite (bind_ok _ _ _ _ _ _ Hloop).
    replace (i - 1 + 1) with i by lia.
    rewrite (bind_ok _ _ _ _ _ _ (setitem_run D i (get D i) ltac:(lia))).
    rewrite upd_same by lia. unfold yield_data.
    eexists _, _. split; [done|]. split; [done|].
    rewrite !snapshots_app, Hsn. simpl.
    replace (Z.to_nat (i + 1 - 1)) with (S (Z.to_nat (i - 1))) by lia.
    by rewrite replicate_S_end.
  - rewrite Hrun. split; [done|]. simpl in Hsn. rewrite Hsn.
    f_equal. unfold n, len. lia.
Qed.

Lemma insertion_sort_on_sorted_witness :
  Sorted Z.le [1; 2; 2; 5]
  ∧ ∃ t,
      InsertionSort.wrapped_sort [1; 2; 2; 5] = (t, [1; 2; 2; 5], Ok tt)
      ∧ snapshots t = replicate (length [1; 2; 2; 5] - 1) [1; 2; 2; 5].
Proof.
  assert (Sorted Z.le [1; 2; 2; 5]) as H by (repeat constructor; lia).
  split; [exact H|]. apply (insertion_sort_on_sorted [1; 2; 2; 5] H).
Defined.

(** ** Counting snapshots that do not depend on the data *)

Lemma range_length_nat lo hi : length (range lo hi) = Z.to_nat (hi - lo).
Proof. unfold range. apply length_seqZ. Qed.

Lemma emits_readonly {A} (m : Gen A) : readonly m → emits 0 m.
Proof. intros Hm d t d' a Hrun. destruct (Hm _ _ _ _ Hrun) as [_ ->]. done. Qed.

Lemma emits_yield : emits 1 yield_data.
Proof. by intros d t d' a [= <- <- _]. Qed.

Lemma emits_setitem i v : emits 0 (setitem i v).
Proof.
  intros d t d' a. unfold setitem. by destruct (py_index (len d) i); intros [= <- <- _].
Qed.

Lemma emits_bind {A B} k1 k2 (m : Gen A) (f : A → Gen B) :
  emits k1 m → (∀ a, emits k2 (f a)) → emits (k1 + k2) (m ≫= f).
Proof.
  intros Hm Hf d t d' b Hrun.
  apply bind_inv in Hrun as (t1 & d1 & a & t2 & Hm1 & Hf1 & ->).
  rewrite snapshots_app, length_app. by rewrite (Hm _ _ _ _ Hm1), (Hf _ _ _ _ _ Hf1).
Qed.

Lemma emits_for_fold {A S} k (xs : list A) (body : A → S → Gen S) s :
  (∀ x s, emits k (body x s)) → emits (length xs * k) (for_fold xs s body).
Proof.
  intros Hb. revert s. induction xs as [|x xs IH]; intros s; simpl.
  - apply emits_readonly, readonly_ret.
  - apply emits_bind; [apply Hb | apply IH].
Qed.

Lemma emits_merge left mid right :
  emits (length (range left (right + 1))) (MergeSort._merge left mid right).
Proof.
  replace (length (range left (right + 1)))
    with (0 + (0 + (length (range left (right + 1)) * 1 + 0)))%nat by lia.
  apply emits_bind; [apply emits_readonly, readonly_getslice|]. intros L.
  apply emits_bind; [apply emits_readonly, readonly_getslice|]. intros R.
  apply emits_bind; [|intros; apply emits_readonly, readonly_ret].
  apply emits_for_fold. intros i [l r].
  change 1%nat with (0 + (0 + (1 + 0)))%nat.
  apply emits_bind; [apply emits_readonly; readonly_tac|]. intros take_left.
  apply emits_bind.
  - destruct take_left; change 0%nat with (0 + (0 + 0))%nat;
      (apply emits_bind; [apply emits_readonly, readonly_local_getitem|]; intros x;
       apply emits_bind; [apply emits_setitem|]; intros _;
       apply emits_readonly, readonly_ret).
  - intros lr. apply emits_bind; [apply emits_yield|]. intros _.
    apply emits_readonly, readonly_ret.
Qed.

Lemma emits_merge_sort fuel : ∀ left right,
  emits (merge_sort_writes fuel left right) (MergeSort._merge_sort fuel left right).
Proof.
  induction fuel as [|fuel IH]; intros left right; simpl;
    (destruct (left <? right); [|apply emits_readonly, readonly_ret]).
  - by intros d t d' a.
  - rewrite <- Nat.add_assoc.
    apply emits_bind; [apply IH|]. intros _.
    apply emits_bind; [apply IH|]. intros _. apply emits_merge.
Qed.

(** X7: merging two adjacent sorted ranges [d[left .. mid]] and
    [d[mid+1 .. right]] succeeds, leaves [d[left .. right]] sorted with
    the same elements, touches nothing outside that range, and yields
    exactly one snapshot per element written, [right - left + 1] in all. *)
Theorem merge_sorted_halves d left mid right :
  0 ≤ left → left ≤ mid → mid < right → right < len d →
  sorted_range d left (mid + 1) → sorted_range d (mid + 1) (right + 1) →
  ∃ t d',
    MergeSort._merge left mid right d = (t, d', Ok tt)
    ∧ sorted_range d' left (right + 1)
    ∧ d ≡ₚ d'
    ∧ (∀ k, 0 ≤ k → k < left ∨ right < k → get d' k = get d k)
    ∧ length (snapshots t) = Z.to_nat (right - left + 1).
Proof.
  intros H0 H1 H2 H3 HsL HsR.
  destruct (merge_spec d left mid right H0 H1 H2 H3 HsL HsR)
    as (t & d' & Hrun & (Hlen & Hperm & Hframe) & Hsorted).
  exists t, d'. split; [done|]. split; [done|]. split; [done|]. split.
  - intros k Hk Hout. apply Hframe; lia.
  - rewrite (emits_merge left mid right d t d' tt Hrun).
    pose proof (range_length_nat left (right + 1)). lia.
Qed.

Lemma merge_sorted_halves_witness :
  (0 ≤ 1 ∧ 1 ≤ 2 ∧ 2 < 4 ∧ 4 < len [9; 2; 7; 1; 5; 0]
   ∧ sorted_range [9; 2; 7; 1; 5; 0] 1 (2 + 1)
   ∧ sorted_range [9; 2; 7; 1; 5; 0] (2 + 1) (4 + 1))
  ∧ ∃ t d',
      MergeSort._merge 1 2 4 [9; 2; 7; 1; 5; 0] = (t, d', Ok tt)
      ∧ sorted_range d' 1 (4 + 1)
      ∧ [9; 2; 7; 1; 5; 0] ≡ₚ d'
      ∧ (∀ k, 0 ≤ k → k < 1 ∨ 4 < k → get d' k = get [9; 2; 7; 1; 5; 0] k)
      ∧ length (snapshots t) = Z.to_nat (4 - 1 + 1).
Proof.
  assert (sorted_range [9; 2; 7; 1; 5; 0] 1 (2 + 1)) as HL.
  { intros a b Ha Hab Hb.
    assert (a = 1 ∨ a = 2) as [->| ->] by lia; assert (b = 1 ∨ b = 2) as [->| ->] by lia;
      vm_compute; congruence || lia. }
  assert (sorted_range [9; 2; 7; 1; 5; 0] (2 + 1) (4 + 1)) as HR.
  { intros a b Ha Hab Hb.
    assert (a = 3 ∨ a = 4) as [->| ->] by lia; assert (b = 3 ∨ b = 4) as [->| ->] by lia;
      vm_compute; congruence || lia. }
  split.
  - repeat split; try lia; try done; unfold len; simpl; lia.
  - apply (merge_sorted_halves [9; 2; 7; 1; 5; 0] 1 2 4); try lia; try done;
      unfold len; simpl; lia.
Defined.

(** X8: the number of snapshots of merge sort is fixed by the number of
    elements alone: it is the total number of elements written by the
    merges, whatever the values, so two datasets of the same length give
    sequences of the same length. *)
Theorem merge_sort_snapshot_count_by_length D1 D2 :
  length D1 = length D2 →
  length (snapshots (trace_of (MergeSort.wrapped_sort D1)))
  = length (snapshots (trace_of (MergeSort.wrapped_sort D2)))
  ∧ length (snapshots (trace_of (MergeSort.wrapped_sort D1)))
    = merge_sort_writes (length D1) 0 (len D1 - 1).
Proof.
  intros Hlen.
  assert (∀ D, length (snapshots (trace_of (MergeSort.wrapped_sort D)))
               = merge_sort_writes (length D) 0 (len D - 1)) as Hcount.
  { intros D. destruct (merge_sort_sort_spec D) as (t & D' & Hrun & _).
    rewrite Hrun. unfold trace_of. simpl.
    unfold MergeSort.wrapped_sort in Hrun.
    rewrite (bind_ok len_data _ D [] D (len D) eq_refl) in Hrun.
    destruct (MergeSort._merge_sort (Z.to_nat (len D)) 0 (len D - 1) D)
      as [[t1 d1] r1] eqn:Hms.
    injection Hrun as <- <- ->. simpl.
    rewrite (emits_merge_sort _ _ _ _ _ _ _ Hms).
    unfold len. by rewrite Nat2Z.id. }
  split; [|apply Hcount].
  rewrite !Hcount. unfold len. by rewrite Hlen.
Qed.

Lemma merge_sort_snapshot_count_by_length_witness :
  length [3; 1; 2] = length [7; 7; 7]
  ∧ length (snapshots (trace_of (MergeSort.wrapped_sort [3; 1; 2])))
    = length (snapshots (trace_of (MergeSort.wrapped_sort [7; 7; 7])))
    ∧ length (snapshots (trace_of (MergeSort.wrapped_sort [3; 1; 2])))
      = merge_sort_writes (length [3; 1; 2]) 0 (len [3; 1; 2] - 1).
Proof.
  split; [reflexivity|].
  apply (merge_sort_snapshot_count_by_length [3; 1; 2] [7; 7; 7]). reflexivity.
Defined.

(** ** Quick sort partitions at most once per element but one *)

Lemma quick_sort_count fuel : ∀ low high d,
  0 ≤ low → high < len d → (Z.to_nat (high - low) ≤ fuel)%nat →
  ∃ t d',
    QuickSort._quick_sort fuel low high d = (t, d', Ok tt)
    ∧ len d' = len d
    ∧ (length (snapshots t) ≤ Z.to_nat (high - low))%nat
    ∧ (low < high → (1 ≤ length (snapshots t))%nat).
Proof.
  induction fuel as [|fuel IH]; intros low high d Hlow Hhigh Hfuel.
  - simpl. destruct (Z.ltb_spec low high); [lia|].
    exists [], d. repeat split; simpl; lia.
  - simpl. destruct (Z.ltb_spec low high) as [Hlt|Hge]; cycle 1.
    { exists [], d. repeat split; simpl; lia. }
    destruct (partition_spec d low high) as (ops & d1 & p & Hpart & Hacc & Hp & Hpw1 & _);
      [lia..|].
    assert (len d1 = len d) as Hlen1 by apply (pw_len _ _ _ _ Hpw1).
    destruct (IH low (p - 1) d1) as (t2 & d2 & Hleft & Hlen2 & Hc2 & _); [lia..|].
    destruct (IH (p + 1) high d2) as (t3 & d3 & Hright & Hlen3 & Hc3 & _); [lia..|].
    rewrite (bind_ok _ _ _ _ _ _ Hpart).
    rewrite (bind_ok yield_data _ d1 [EvYield d1] d1 tt eq_refl).
    rewrite (bind_ok _ _ _ _ _ _ Hleft). rewrite Hright.
    eexists _, d3. split; [done|]. split; [lia|].
    change (EvPartition low high :: ops) with ([EvPartition low high] ++ ops).
    rewrite !snapshots_app, !length_app, (access_no_snapshot ops Hacc). simpl.
    split; lia.
Qed.

(** X9: quick sort yields at most one snapshot per element but one: on a
    dataset of [n] elements it yields at most [n - 1] snapshots, at least
    one when [n >= 2], and none when [n <= 1]. *)
Theorem quick_sort_snapshot_bound D :
  (length (snapshots (trace_of (QuickSort.wrapped_sort D))) ≤ length D - 1)%nat
  ∧ ((2 ≤ length D)%nat → (1 ≤ length (snapshots (trace_of (QuickSort.wrapped_sort D))))%nat).
Proof.
  unfold QuickSort.wrapped_sort.
  rewrite (bind_ok len_data _ D [] D (len D) eq_refl).
  destruct (quick_sort_count (Z.to_nat (len D)) 0 (len D - 1) D)
    as (t & D' & Hrun & _ & Hc & Hone); [lia..|].
  rewrite Hrun. unfold trace_of. simpl. unfold len in *. split; lia.
Qed.





(** ** All strategies agree, and selection sort fills the front *)


(** A list whose first [m] positions are in their final place agrees on
    them with the sorted list of the same elements. *)
Lemma head_sorted_take s F m :
  0 ≤ m → m ≤ len s → head_sorted s m → s ≡ₚ F → Sorted Z.le F →
  take (Z.to_nat m) s = take (Z.to_nat m) F.
Proof.
  intros Hm0 Hm Hhead Hperm HF.
  destruct (strategy_sorts Insertion (drop (Z.to_nat m) s)) as (_ & B & _ & HpB & HsB).
  assert (length (take (Z.to_nat m) s) = Z.to_nat m) as Hlen
    by (rewrite length_take; unfold len in Hm; lia).
  assert (Sorted Z.le (take (Z.to_nat m) s)) as HsA.
  { apply sorted_range_Sorted. intros a b Ha Hab Hb.
    unfold len in Hb. rewrite Hlen in Hb. unfold get.
    rewrite !lookup_take_lt by lia. apply Hhead; lia. }
  assert (Sorted Z.le (take (Z.to_nat m) s ++ B)) as Hs'.
  { apply StronglySorted_Sorted, StronglySorted_app_2;
      [|by apply (Sorted_StronglySorted _)..].
    intros x1 x2 Hx1 Hx2. rewrite <- HpB in Hx2.
    apply list_elem_of_lookup in Hx1 as [a Ha]. apply list_elem_of_lookup in Hx2 as [b Hb].
    apply lookup_take_Some in Ha as [Ha Ham]. rewrite lookup_drop in Hb.
    pose proof (lookup_lt_Some _ _ _ Hb) as Hblt.
    specialize (Hhead (Z.of_nat a) (Z.of_nat (Z.to_nat m + b))).
    unfold get, len in Hhead. rewrite !Nat2Z.id, Ha, Hb in Hhead. simpl in Hhead.
    apply Hhead; lia. }
  assert (take (Z.to_nat m) s ++ B = F) as <-.
  { apply (Sorted_unique Z.le); [done..|].
    rewrite <- Hperm, <- HpB. by rewrite take_drop. }
  by rewrite take_app_length' by done.
Qed.

(** One outer iteration of selection sort. *)
Lemma selection_iteration d n i :
  len d = n → 0 ≤ i < n → head_sorted d i →
  ∃ t d',
    (min_idx ← for_fold (range (i + 1) n) i (λ j min_idx,
                 a ← getitem j; b ← getitem min_idx;
                 if a <? b then mret j else mret min_idx);
     swap i min_idx;; yield_data) d = (t, d', Ok tt)
    ∧ snapshots t = [d']
    ∧ permuted_within i n d d'
    ∧ head_sorted d' (i + 1).
Proof.
  intros Hlen Hi Hhead.
  destruct (selection_scan d n i Hlen Hi) as (t1 & m & Hscan & Hm & Hmin & Hsn).
  rewrite (bind_ok _ _ _ _ _ _ Hscan).
  rewrite (bind_ok _ _ _ _ _ _ (swap_run d i m ltac:(lia) ltac:(lia))).
  unfold yield_data.
  set (d' := upd (upd d i (get d m)) m (get d i)).
  assert (permuted_within i n d d') as Hsw by (apply permuted_within_swap; lia).
  eexists _, d'. split; [done|]. split; [|split; [done|]].
  - rewrite !snapshots_app, Hsn. done.
  - rewrite <- Hlen in Hsw.
    pose proof (head_sorted_permuted d d' i ltac:(lia) Hsw Hhead) as Hh'.
    intros a b Ha Hai Hab Hb.
    destruct (decide (a = i)) as [->|]; [|apply Hh'; lia].
    rewrite (pw_len _ _ _ _ Hsw) in Hb.
    destruct (pw_inside _ _ _ _ Hsw b ltac:(lia)) as (k & Hk & ->).
    assert (get d' i = get d m) as ->.
    { unfold d'. rewrite get_upd by len_lia. case_decide; [by subst|].
      apply get_upd_eq. lia. }
    apply Hmin; lia.
Qed.

Lemma selection_sort_snapshots D :
  ∃ t D',
    SelectionSort.wrapped_sort D = (t, D', Ok tt)
    ∧ ∀ k s, snapshots t !! k = Some s →
        len s = len D ∧ D ≡ₚ s ∧ head_sorted s (Z.of_nat k + 1).
Proof.
  unfold SelectionSort.wrapped_sort.
  rewrite (bind_ok len_data _ D [] D (len D) eq_refl).
  set (n := len D).
  for_each_invariant
    (λ i t d, permuted_within 0 n D d
              ∧ head_sorted d i
              ∧ length (snapshots t) = Z.to_nat i
              ∧ ∀ k s, snapshots t !! k = Some s →
                  len s = n ∧ D ≡ₚ s ∧ head_sorted s (Z.of_nat k + 1))
    from (@nil event) at D
    as (t & D' & Hrun & _ & _ & _ & Hall); [| | | exists t, D'].
  - apply len_nonneg.
  - split; [apply permuted_within_refl|]. split; [intros a b Ha Hai; lia|].
    split; [done|]. intros k s Hk. simpl in Hk. done.
  - intros i t d Hi (Hpw & Hhead & Hcount & Hall).
    assert (len d = n) as Hlen by (rewrite (pw_len _ _ _ _ Hpw); done).
    destruct (selection_iteration d n i Hlen Hi Hhead) as (t' & d' & Hrun & Hsn & Hsw & Hh').
    assert (permuted_within 0 n D d') as Hpw'.
    { eapply permuted_within_trans; [exact Hpw|].
      eapply permuted_within_weaken; [| | | |exact Hsw]; lia. }
    exists t', d'. split; [exact Hrun|]. split; [done|]. split; [done|].
    rewrite snapshots_app, length_app, Hsn. split; [simpl; lia|].
    intros k s Hk. apply lookup_app_Some in Hk as [Hk|[Hge Hk]]; [by apply Hall|].
    apply list_lookup_singleton_Some in Hk as [Hk0 <-].
    replace (Z.of_nat k) with i by lia.
    split; [by rewrite (pw_len _ _ _ _ Hpw')|]. split; [apply (pw_perm _ _ _ _ Hpw') | done].
  - rewrite Hrun. split; [done|]. simpl in Hall. exact Hall.
Qed.

(** X12: selection sort fills the list from the front: the snapshot of
    its [k]-th outer iteration (counting from 0) already holds, at its
    first [k + 1] positions, the values the sorted list ends with. *)
Theorem selection_sort_prefix_final D t D' k s :
  SelectionSort.wrapped_sort D = (t, D', Ok tt) →
  snapshots t !! k = Some s →
  take (S k) s = take (S k) D'.
Proof.
  intros Hrun Hk.
  destruct (selection_sort_snapshots D) as (t0 & D0 & Hrun0 & Hall).
  rewrite Hrun in Hrun0. injection Hrun0 as <- <-.
  destruct (selection_sort_spec D) as (t0 & D0 & Hrun0 & Hperm & Hsorted & Htr).
  rewrite Hrun in Hrun0. injection Hrun0 as <- <-.
  destruct (Hall k s Hk) as (Hlen & Hperms & Hhead).
  pose proof (made_of_selection_snapshots _ _ Htr) as Hcount.
  pose proof (lookup_lt_Some _ _ _ Hk) as Hklt.
  replace (S k) with (Z.to_nat (Z.of_nat k + 1)) by lia.
  apply head_sorted_take; [lia | unfold len in *; lia | done | |].
  - by rewrite <- Hperms.
  - by apply sorted_range_Sorted.
Qed.

Lemma selection_sort_prefix_final_witness :
  (SelectionSort.wrapped_sort [5; 3; 4; 1; 2]
   = ([EvRead 1; EvRead 0; EvRead 2; EvRead 1; EvRead 3; EvRead 1; EvRead 4; EvRead 3;
       EvRead 3; EvRead 0; EvWrite 0 1; EvWrite 3 5; EvYield [1; 3; 4; 5; 2];
       EvRead 2; EvRead 1; EvRead 3; EvRead 1; EvRead 4; EvRead 1;
       EvRead 4; EvRead 1; EvWrite 1 2; EvWrite 4 3; EvYield [1; 2; 4; 5; 3];
       EvRead 3; EvRead 2; EvRead 4; EvRead 2;
       EvRead 4; EvRead 2; EvWrite 2 3; EvWrite 4 4; EvYield [1; 2; 3; 5; 4];
       EvRead 4; EvRead 3; EvRead 4; EvRead 3; EvWrite 3 4; EvWrite 4 5;
       EvYield [1; 2; 3; 4; 5];
       EvRead 4; EvRead 4; EvWrite 4 5; EvWrite 4 5; EvYield [1; 2; 3; 4; 5]],
      [1; 2; 3; 4; 5], Ok tt)
   ∧ [[1; 3; 4; 5; 2]; [1; 2; 4; 5; 3]; [1; 2; 3; 5; 4]; [1; 2; 3; 4; 5]; [1; 2; 3; 4; 5]]
       !! 1%nat = Some [1; 2; 4; 5; 3])
  ∧ take 2 [1; 2; 4; 5; 3] = take 2 [1; 2; 3; 4; 5].
Proof.
  split; [split; reflexivity|].
  eapply (selection_sort_prefix_final [5; 3; 4; 1; 2] _ [1; 2; 3; 4; 5] 1 [1; 2; 4; 5; 3]);
    reflexivity.
Defined.

(** ** The controls *)

Lemma strategy_of_name_Some algo :
  is_Some (strategy_of_name algo) ↔ algo ∈ algorithm_names.
Proof.
  unfold strategy_of_name, algorithm_names. rewrite !elem_of_cons, elem_of_nil.
  split.
  - intros [v Hv]. revert Hv.
    repeat (match goal with
            | |- context [String.eqb algo ?s] =>
                destruct (String.eqb_spec algo s) as [->|?]; [by eauto 10|]
            end).
    done.
  - intros [->|[->|[->|[->|[->|[]]]]]]; by eexists.
Qed.

Lemma run_sort_draws v self w D :
  heap w !! self_data self = Some D →
  ∃ t w',
    run_sort self {| strategy := v |} w = (t, w', Ok tt)
    ∧ io_draws t = snapshots (trace_of (strategy_wrapped_sort v D)).
Proof.
  intros Hl. destruct (strategy_sorts v D) as (t & D' & Hrun & _ & _).
  eexists _, _. split; [exact (run_sort_run v self w D t D' (Ok tt) Hl Hrun)|].
  rewrite io_draws_app, io_draws_playback. by rewrite Hrun.
Qed.

Lemma start_sort_started self w self' ctx :
  start_sort self w = Some (self', ThreadStarted ctx) →
  ∃ x D,
    heap w !! self_data (analyzer self) = Some (x :: D)
    ∧ strategy_of_name (algo_menu_get self) = Some (strategy ctx)
    ∧ self' = {| analyzer := analyzer self;
                 current_color := strategy_color (strategy ctx);
                 algo_menu_get := algo_menu_get self |}.
Proof.
  unfold start_sort. intros H.
  destruct (heap w !! self_data (analyzer self)) as [[|x D]|]; [done| |done].
  destruct (strategy_of_name (algo_menu_get self)) as [v|]; [|done].
  injection H as <- <-. by exists x, D.
Qed.

(** X13: [start_sort] starts a playback exactly when the dataset is not
    empty and the combobox holds one of the five algorithm names,
    character for character.  It then runs the strategy of that name and
    stores its colour; otherwise it shows an error and changes nothing,
    and the dialog says "Please generate data first" exactly when the
    dataset is empty, whatever the combobox holds. *)
Theorem start_sort_starts_iff self w D :
  heap w !! self_data (analyzer self) = Some D →
  ((∃ self' ctx, start_sort self w = Some (self', ThreadStarted ctx))
     ↔ D ≠ [] ∧ algo_menu_get self ∈ algorithm_names)
  ∧ (∀ self' ctx, start_sort self w = Some (self', ThreadStarted ctx) →
       strategy_of_name (algo_menu_get self) = Some (strategy ctx)
       ∧ current_color self' = strategy_color (strategy ctx)
       ∧ analyzer self' = analyzer self)
  ∧ (∀ self' title message, start_sort self w = Some (self', ShowError title message) →
       self' = self ∧ title = "Error"%string
       ∧ (message = "Please generate data first"%string ↔ D = [])
       ∧ (message = "Unknown algorithm selected"%string ↔ D ≠ [])).
Proof.
  intros HD. split; [|split].
  - rewrite <- strategy_of_name_Some. unfold start_sort. rewrite HD. split.
    + intros (self' & ctx & H). destruct D as [|x D]; [done|]. split; [done|].
      destruct (strategy_of_name (algo_menu_get self)); [by eexists | done].
    + intros [HDne [v Hv]]. destruct D as [|x D]; [done|]. rewrite Hv. by eexists _, _.
  - intros self' ctx H.
    destruct (start_sort_started _ _ _ _ H) as (x & D0 & _ & Hname & ->). done.
  - intros self' title message. unfold start_sort. rewrite HD.
    destruct D as [|x D].
    + intros [= <- <- <-]. repeat split; done.
    + destruct (strategy_of_name (algo_menu_get self)); [done|].
      intros [= <- <- <-]. repeat split; done.
Qed.

Lemma start_sort_starts_iff_witness :
  heap (example_world [3; 1; 2]) !! self_data (analyzer
    {| analyzer := {| self_data := 0%nat |}; current_color := "blue";
       algo_menu_get := "Quick Sort" |}) = Some [3; 1; 2]
  ∧ ((∃ self' ctx,
        start_sort {| analyzer := {| self_data := 0%nat |}; current_color := "blue";
                      algo_menu_get := "Quick Sort" |} (example_world [3; 1; 2])
        = Some (self', ThreadStarted ctx))
     ↔ [3; 1; 2] ≠ [] ∧ "Quick Sort"%string ∈ algorithm_names).
Proof.
  split; [reflexivity|].
  apply (start_sort_starts_iff
           {| analyzer := {| self_data := 0%nat |}; current_color := "blue";
              algo_menu_get := "Quick Sort" |} (example_world [3; 1; 2]) [3; 1; 2]).
  reflexivity.
Defined.

Lemma started_playback_like_helper (P : Z → Prop) v self w D :
  heap w !! self_data self = Some D →
  Forall P D →
  ∃ t w',
    run_sort self {| strategy := v |} w = (t, w', Ok tt)
    ∧ Forall (λ s, length s = length D ∧ Forall P s) (io_draws t).
Proof.
  intros HD HP.
  destruct (run_sort_draws v self w D HD) as (t & w' & Hrun & Hdraws).
  exists t, w'. split; [done|]. rewrite Hdraws.
  pose proof (preserves_strategy same_length setitem_same_length v) as Hlen.
  pose proof (confined_strategy P v) as Hconf.
  destruct (strategy_wrapped_sort v D) as [[t0 D'] r] eqn:Hsort.
  destruct (Hlen _ _ _ _ Hsort) as [_ Hl]. destruct (Hconf _ _ _ _ HP Hsort) as (_ & Hc & _).
  unfold trace_of. simpl. rewrite Forall_forall in Hl, Hc. apply Forall_forall.
  intros s Hs. split; [by apply Hl | by apply Hc].
Qed.



(** X15: "Generate Data" followed by "Start".  If [random.randint(10,
    100)] keeps to its bounds, [generate_data] draws and stores a new
    list of 30 values between 10 and 100 and changes no list that
    existed; with one of the five names selected, [start_sort] then
    starts a playback, which runs to the end and draws only lists of 30
    values between 10 and 100. *)
Theorem generate_then_start_plays randint self w :
  (∀ k, 10 ≤ randint k ≤ 100) →
  algo_menu_get self ∈ algorithm_names →
  ∃ data self1 w1 self2 ctx t w2,
    generate_data randint self w = ([IoDraw data], w1, Ok self1)
    ∧ length data = 30%nat
    ∧ Forall (λ x, 10 ≤ x ≤ 100) data
    ∧ heap w1 !! self_data (analyzer self1) = Some data
    ∧ (∀ l, (l < length (heap w))%nat → heap w1 !! l = heap w !! l)
    ∧ start_sort self1 w1 = Some (self2, ThreadStarted ctx)
    ∧ run_sort (analyzer self2) ctx w1 = (t, w2, Ok tt)
    ∧ Forall (λ s, length s = 30%nat ∧ Forall (λ x, 10 ≤ x ≤ 100) s) (io_draws t).
Proof.
  intros Hrand Hname.
  set (data := map randint (seq 0 30)).
  assert (Forall (λ x, 10 ≤ x ≤ 100) data) as HP.
  { apply Forall_forall. intros x Hx. apply list_elem_of_fmap in Hx as (k & -> & _).
    apply Hrand. }
  set (self1 := {| analyzer := {| self_data := length (heap w) |};
                   current_color := current_color self;
                   algo_menu_get := algo_menu_get self |}).
  set (w1 := World (heap w ++ [data]) (clock w) (ticks w)).
  assert (heap w1 !! self_data (analyzer self1) = Some data) as Hdata.
  { simpl. rewrite lookup_app_r by done. by rewrite Nat.sub_diag. }
  apply strategy_of_name_Some in Hname as [v Hv].
  assert (start_sort self1 w1
          = Some ({| analyzer := analyzer self1; current_color := strategy_color v;
                     algo_menu_get := algo_menu_get self1 |},
                  ThreadStarted {| strategy := v |})) as Hstart.
  { unfold start_sort. rewrite Hdata. change (algo_menu_get self1) with (algo_menu_get self).
    by rewrite Hv. }
  destruct (started_playback_like_helper (λ x, 10 ≤ x ≤ 100) v (analyzer self1) w1 data Hdata HP)
    as (t & w2 & Hrun & Hall).
  eexists data, self1, w1, _, _, t, w2.
  split; [done|]. split; [done|]. split; [done|]. split; [done|].
  split; [intros l Hl; simpl; by apply lookup_app_l|].
  split; [exact Hstart|]. split; [exact Hrun|].
  eapply Forall_impl; [exact Hall|]. intros s (Hlen & HPs). by split.
Qed.

Lemma generate_then_start_plays_witness :
  ((∀ k, 10 ≤ 10 + Z.of_nat k `mod` 91 ≤ 100)
   ∧ algo_menu_get {| analyzer := {| self_data := 0%nat |}; current_color := "blue";
                      algo_menu_get := "Bubble Sort" |} ∈ algorithm_names)
  ∧ ∃ data self1 w1 self2 ctx t w2,
      generate_data (λ k, 10 + Z.of_nat k `mod` 91)
        {| analyzer := {| self_data := 0%nat |}; current_color := "blue";
           algo_menu_get := "Bubble Sort" |} (example_world [])
      = ([IoDraw data], w1, Ok self1)
      ∧ length data = 30%nat
      ∧ Forall (λ x, 10 ≤ x ≤ 100) data
      ∧ heap w1 !! self_data (analyzer self1) = Some data
      ∧ (∀ l, (l < length (heap (example_world [])))%nat →
              heap w1 !! l = heap (example_world []) !! l)
      ∧ start_sort self1 w1 = Some (self2, ThreadStarted ctx)
      ∧ run_sort (analyzer self2) ctx w1 = (t, w2, Ok tt)
      ∧ Forall (λ s, length s = 30%nat ∧ Forall (λ x, 10 ≤ x ≤ 100) s) (io_draws t).
Proof.
  assert (∀ k, 10 ≤ 10 + Z.of_nat k `mod` 91 ≤ 100) as Hr.
  { intros k. pose proof (Z.mod_pos_bound (Z.of_nat k) 91). lia. }
  assert ("Bubble Sort"%string ∈ algorithm_names) as Hn by (by left).
  split; [by split|].
  apply (generate_then_start_plays (λ k, 10 + Z.of_nat k `mod` 91)
           {| analyzer := {| self_data := 0%nat |}; current_color := "blue";
              algo_menu_get := "Bubble Sort" |} (example_world []) Hr Hn).
Defined.


